(** * Path-based label rules: matcher, evaluator, merger and rule store

    A shallow embedding of
      packages/shared/src/labels/path-rules/types.ts
      packages/shared/src/labels/path-rules/evaluator.ts
      packages/shared/src/labels/path-rules/storage.ts
    together with the parts of the JavaScript runtime those files call
    (string methods, [Set], [Array.prototype.sort], Node's [path] module,
    [fs] and [JSON.parse]).

    Conventions.
    - A JavaScript string is a [string]; every character stands for one
      UTF-16 code unit below 256, so [String.length] is [.length].
    - [Set<string>] is [gset string]; [has] is membership, [Array.from(s).some]
      quantifies over [elements s].
    - [T | undefined] is [option T]; a thrown exception is the [Throw] case of
      the result type of the store. *)

From Stdlib Require Import ZArith Ascii String Sorted.
From stdpp Require Import base gmap sets list strings.

Local Open Scope Z_scope.

(** ** JavaScript string methods used by the sources *)

Module JsString.

(** [s.length] *)
Definition length (s : string) : Z := Z.of_nat (String.length s).

(** [s.startsWith(p)] *)
Definition startsWith (s p : string) : bool := String.prefix p s.

(** [s.split(sep)[0]] for a non-empty separator: the part of [s] before the
    first occurrence of [sep], or all of [s] when [sep] does not occur. *)
Fixpoint splitHead (sep s : string) : string :=
  if String.prefix sep s then ""
  else match s with
       | EmptyString => ""
       | String c s' => String c (splitHead sep s')
       end.

(** [s.split(sep)] for a one-character separator. *)
Fixpoint split (sep : ascii) (s : string) : list string :=
  match s with
  | EmptyString => [""]
  | String c s' =>
      if Ascii.eqb c sep then "" :: split sep s'
      else match split sep s' with
           | [] => [String c ""]
           | seg :: rest => String c seg :: rest
           end
  end.

(** One code unit of [s.toLowerCase()], on the Latin-1 range. *)
Definition lowerChar (c : ascii) : ascii :=
  let n := N_of_ascii c in
  if ((65 <=? n) && (n <=? 90))%N then ascii_of_N (n + 32)
  else if ((192 <=? n) && (n <=? 222) && negb (n =? 215))%N
       then ascii_of_N (n + 32)
       else c.

(** [s.toLowerCase()] *)
Fixpoint toLowerCase (s : string) : string :=
  match s with
  | EmptyString => ""
  | String c s' => String (lowerChar c) (toLowerCase s')
  end.

End JsString.

(** ** Node's [path] module and [process.platform]

    The evaluator reaches the host through [path.resolve], [path.normalize],
    [path.relative], [path.isAbsolute] and [process.platform]. *)

Class Host := {
  (** [process.platform === 'win32'] *)
  win32 : bool;
  path_resolve : string -> string;
  path_normalize : string -> string;
  path_relative : string -> string -> string;
  path_isAbsolute : string -> bool
}.

(** The POSIX flavour of Node's [path] (lib/path.js, [posix]), at the level of
    path segments.  [cwd] is [process.cwd()]. *)
Module Posix.

Definition isAbsolute (p : string) : bool :=
  match p with
  | String "/"%char _ => true
  | _ => false
  end.

(** One separator-delimited segment of [normalizeString]; [res] is the
    result so far, last segment first. *)
Definition normalizeStep (allowAboveRoot : bool) (res : list string)
    (seg : string) : list string :=
  if String.eqb seg "" || String.eqb seg "." then res
  else if String.eqb seg ".." then
    match res with
    | last :: res' =>
        if String.eqb last ".."
        then (if allowAboveRoot then ".." :: res else res)
        else res'
    | [] => if allowAboveRoot then [".."] else []
    end
  else seg :: res.

(** [normalizeString(path, allowAboveRoot, '/', isPosixPathSeparator)] *)
Definition normalizeString (p : string) (allowAboveRoot : bool) : string :=
  String.concat "/"
    (rev (fold_left (normalizeStep allowAboveRoot) (JsString.split "/" p) [])).

(** [posix.resolve(p)] with one argument. *)
Definition resolve (cwd p : string) : string :=
  let '(resolvedPath, resolvedAbsolute) :=
    let r0 := if String.eqb p "" then ("", false)
              else (p +:+ "/", isAbsolute p) in
    if snd r0 then r0
    else if String.eqb cwd "" then r0
         else (cwd +:+ "/" +:+ fst r0, isAbsolute cwd) in
  let resolvedPath := normalizeString resolvedPath (negb resolvedAbsolute) in
  if resolvedAbsolute then "/" +:+ resolvedPath
  else if String.eqb resolvedPath "" then "." else resolvedPath.

Definition endsWithSlash (p : string) : bool :=
  match rev (list_ascii_of_string p) with
  | "/"%char :: _ => true
  | _ => false
  end.

(** [posix.normalize(p)] *)
Definition normalize (p : string) : string :=
  if String.eqb p "" then "."
  else
    let isAbs := isAbsolute p in
    let trailingSeparator := endsWithSlash p in
    let q := normalizeString p (negb isAbs) in
    if String.eqb q "" then
      if isAbs then "/" else if trailingSeparator then "./" else "."
    else
      let q := if trailingSeparator then q +:+ "/" else q in
      if isAbs then "/" +:+ q else q.

(** The segments of a resolved path. *)
Definition pathSegments (p : string) : list string :=
  filter (fun seg => seg <> "") (JsString.split "/" p).

Fixpoint dropCommon (a b : list string) : list string * list string :=
  match a, b with
  | x :: a', y :: b' => if String.eqb x y then dropCommon a' b' else (a, b)
  | _, _ => (a, b)
  end.

(** [posix.relative(from, to)]: one [..] for every segment of [from] below
    the longest common ancestor, then the rest of [to]. *)
Definition relative (cwd from to : string) : string :=
  if String.eqb from to then ""
  else
    let from := resolve cwd from in
    let to := resolve cwd to in
    if String.eqb from to then ""
    else
      let '(up, down) := dropCommon (pathSegments from) (pathSegments to) in
      String.concat "/" (map (fun _ => "..") up ++ down).

(** [posix.join(...parts)]: the non-empty parts joined by [/], normalized. *)
Definition join (parts : list string) : string :=
  normalize (String.concat "/" (filter (fun part => part <> "") parts)).

(** [posix.dirname(p)] for a normalized path without a trailing slash. *)
Definition dirname (p : string) : string :=
  match removelast (JsString.split "/" p) with
  | [] => "."
  | [seg] => if String.eqb seg "" then "/" else seg
  | segs => String.concat "/" segs
  end.

Definition host (cwd : string) : Host := {|
  win32 := false;
  path_resolve := resolve cwd;
  path_normalize := normalize;
  path_relative := relative cwd;
  path_isAbsolute := isAbsolute
|}.

End Posix.

(** ** types.ts *)

Inductive PathMatchMode := exact | prefix.

Module PathRule.
Record t := mk {
  id : string;
  path : string;
  match_ : PathMatchMode;
  labelId : string;
  value : option string;
  enabled : option bool;
  description : option string
}.
End PathRule.

(** [PathRulesConfig].  The evaluator reads the rules as [PathRule.t]; the
    store fills the same shape with the parsed JSON entries that passed
    [isValidRule] (the type guard is a compile-time assertion, the entries
    are not converted), hence the parameter. *)
Record PathRulesConfig (R : Type) := {
  version : Z;
  rules : list R
}.
Arguments version {R} _.
Arguments rules {R} _.

Record PathRuleMatch := {
  rule : PathRule.t;
  labelEntry : string
}.

(** The label tree of [../types.ts], of which the evaluator reads [id] and
    [children] only. *)
#[warnings="-register-all"]
Inductive LabelConfig := Label {
  label_id : string;
  label_children : option (list LabelConfig)
}.

(** ** [Array.prototype.sort]

    The sort is stable (ECMAScript 2019), so for a consistent comparator its
    result is determined: [a] stays before [b] unless [compareFn a b > 0].
    It is modelled by a stable insertion sort. *)

Section Sort.
Context {A : Type} (compareFn : A -> A -> Z).

Fixpoint insertSorted (x : A) (l : list A) : list A :=
  match l with
  | [] => [x]
  | y :: l' => if compareFn x y <=? 0 then x :: l else y :: insertSorted x l'
  end.

Definition sort (l : list A) : list A := foldr insertSorted [] l.
End Sort.

(** The comparator [(a, b) => key(b) - key(a)]: largest key first. *)
Definition descendingBy {A : Type} (key : A -> Z) (a b : A) : Z :=
  key b - key a.

(** ** evaluator.ts *)

Section Evaluator.
Context {host : Host}.

Definition normalizePath (inputPath : string) : string :=
  let normalized := path_normalize (path_resolve inputPath) in
  if win32 then JsString.toLowerCase normalized else normalized.

Definition matchesPath (rulePath workingDirectory : string)
    (mode : PathMatchMode) : bool :=
  let normalizedRule := normalizePath rulePath in
  let normalizedWorkDir := normalizePath workingDirectory in
  match mode with
  | exact => String.eqb normalizedRule normalizedWorkDir
  | prefix =>
      let rel := path_relative normalizedRule normalizedWorkDir in
      String.eqb rel ""
      || (negb (JsString.startsWith rel "..") && negb (path_isAbsolute rel))
  end.

(** One iteration of the loop of [findLabelById]: the label itself, or the
    first hit among its children. *)
Fixpoint findLabelIn (labelId : string) (label : LabelConfig)
    : option LabelConfig :=
  if String.eqb (label_id label) labelId then Some label
  else match label_children label with
       | Some children =>
           (fix loop (ls : list LabelConfig) : option LabelConfig :=
              match ls with
              | [] => None
              | l :: ls' =>
                  match findLabelIn labelId l with
                  | Some found => Some found
                  | None => loop ls'
                  end
              end) children
       | None => None
       end.

Fixpoint findLabelById (labels : list LabelConfig) (labelId : string)
    : option LabelConfig :=
  match labels with
  | [] => None
  | label :: rest =>
      match findLabelIn labelId label with
      | Some found => Some found
      | None => findLabelById rest labelId
      end
  end.

(** [rule.value ? `${rule.labelId}::${rule.value}` : rule.labelId]; the
    empty string is falsy. *)
Definition buildLabelEntry (r : PathRule.t) : string :=
  match PathRule.value r with
  | Some v =>
      if String.eqb v "" then PathRule.labelId r
      else PathRule.labelId r +:+ "::" +:+ v
  | None => PathRule.labelId r
  end.

(** The [for] loop of [evaluatePathRules]; [seenLabelEntries] is threaded
    through the iterations and the pushed matches are returned in order. *)
Fixpoint evaluateLoop (workingDirectory : string)
    (labels : option (list LabelConfig)) (sortedRules : list PathRule.t)
    (seenLabelEntries : gset string) : list PathRuleMatch :=
  match sortedRules with
  | [] => []
  | r :: rest =>
      if negb (matchesPath (PathRule.path r) workingDirectory
                 (PathRule.match_ r))
      then evaluateLoop workingDirectory labels rest seenLabelEntries
      else if match labels with
              | Some ls =>
                  match findLabelById ls (PathRule.labelId r) with
                  | Some _ => false
                  | None => true
                  end
              | None => false
              end
      then evaluateLoop workingDirectory labels rest seenLabelEntries
      else
        let entry := buildLabelEntry r in
        if bool_decide (entry ∈ seenLabelEntries)
        then evaluateLoop workingDirectory labels rest seenLabelEntries
        else {| rule := r; labelEntry := entry |}
             :: evaluateLoop workingDirectory labels rest
                  ({[entry]} ∪ seenLabelEntries)
  end.

Definition byPathLengthDesc (a b : PathRule.t) : Z :=
  JsString.length (PathRule.path b) - JsString.length (PathRule.path a).

(** [config.rules.filter(rule => rule.enabled !== false)] *)
Definition enabledRules (config : PathRulesConfig PathRule.t)
    : list PathRule.t :=
  filter (fun r => PathRule.enabled r <> Some false) (rules config).

(** [[...enabledRules].sort((a, b) => b.path.length - a.path.length)] *)
Definition sortedRules (config : PathRulesConfig PathRule.t)
    : list PathRule.t :=
  sort byPathLengthDesc (enabledRules config).

Definition evaluatePathRules (workingDirectory : option string)
    (config : PathRulesConfig PathRule.t) (labels : option (list LabelConfig))
    : list PathRuleMatch :=
  match workingDirectory with
  | None => []
  | Some wd =>
      if String.eqb wd "" then []
      else evaluateLoop wd labels (sortedRules config) ∅
  end.

(** [l => l === bareId || l.startsWith(`${bareId}::`)] *)
Definition sharesBareId (bareId l : string) : bool :=
  String.eqb l bareId || JsString.startsWith l (bareId +:+ "::").

(** [Array.from(existingLabels).some(...)] *)
Definition hasExistingValue (existingLabels : gset string)
    (bareId : string) : bool :=
  existsb (sharesBareId bareId) (elements existingLabels).

(** The [for] loop of [applyPathRuleMatches]: the entries pushed onto
    [newLabels], in order.  [existingLabels] is never updated. *)
Fixpoint newLabels (existingLabels : gset string)
    (matches : list PathRuleMatch) : list string :=
  match matches with
  | [] => []
  | m :: rest =>
      if bool_decide (labelEntry m ∈ existingLabels)
      then newLabels existingLabels rest
      else
        let bareId := JsString.splitHead "::" (labelEntry m) in
        if hasExistingValue existingLabels bareId
        then newLabels existingLabels rest
        else labelEntry m :: newLabels existingLabels rest
  end.

Definition applyPathRuleMatches (currentLabels : option (list string))
    (matches : list PathRuleMatch) : option (list string) :=
  match matches with
  | [] => currentLabels
  | _ =>
      let existingLabels : gset string :=
        list_to_set (default [] currentLabels) in
      match newLabels existingLabels matches with
      | [] => currentLabels
      | added => Some (default [] currentLabels ++ added)
      end
  end.

End Evaluator.

(** ** JSON values, as [JSON.parse] returns them *)

Module Json.

(** The store never inspects a number, so [Number] carries an integer. *)
#[warnings="-register-all"]
Inductive value :=
| Null
| Bool (b : bool)
| Number (n : Z)
| Str (s : string)
| Array (items : list value)
| Object (props : gmap string value).

(** [typeof v === 'object' && v !== null]: arrays are objects too. *)
Definition isObject (v : value) : bool :=
  match v with
  | Array _ | Object _ => true
  | _ => false
  end.

(** [v[k]] for a key that no prototype defines; [None] is [undefined]. *)
Definition get (v : value) (k : string) : option value :=
  match v with
  | Object props => props !! k
  | _ => None
  end.

(** [typeof x === 'string'] *)
Definition isString (x : option value) : bool :=
  match x with
  | Some (Str _) => true
  | _ => false
  end.

(** [x === s] for a string literal [s] *)
Definition isStr (x : option value) (s : string) : bool :=
  match x with
  | Some (Str s') => String.eqb s' s
  | _ => false
  end.

End Json.

(** ** storage.ts *)

(** What the store asks of the runtime: [path.join], [path.dirname], the
    synchronous [fs] calls on a file-system state, and [JSON]. *)
Class StoreHost := {
  exn : Type;
  fs : Type;
  path_join : list string -> string;
  path_dirname : string -> string;
  fs_existsSync : fs -> string -> bool;
  fs_readFileSync : fs -> string -> exn + string;
  (** [fs.mkdirSync(dir, { recursive: true })] *)
  fs_mkdirSync : fs -> string -> fs * option exn;
  fs_writeFileSync : fs -> string -> string -> fs * option exn;
  JSON_parse : string -> exn + Json.value;
  (** [JSON.stringify(v, null, 2)] *)
  JSON_stringify : Json.value -> string
}.

Module Storage.
Section WithHost.
Context {host : StoreHost}.

(** The three [console.warn] calls of the store. *)
Inductive warning :=
| InvalidStructure
| SkippingInvalidRule (rule : Json.value)
| FailedToLoad (error : exn).

Record World := {
  files : fs;
  console : list warning
}.

Inductive outcome (A : Type) :=
| Return (a : A)
| Throw (e : exn).
Arguments Return {A} _.
Arguments Throw {A} _.

(** A computation that reads and writes the world and may throw. *)
Definition Eff (A : Type) : Type := World -> outcome A * World.

Definition ret {A} (a : A) : Eff A := fun w => (Return a, w).

Definition bind {A B} (c : Eff A) (k : A -> Eff B) : Eff B :=
  fun w =>
    match c w with
    | (Return a, w') => k a w'
    | (Throw e, w') => (Throw e, w')
    end.

(** [try { body } catch (error) { handler(error) }] *)
Definition tryCatch {A} (body : Eff A) (handler : exn -> Eff A) : Eff A :=
  fun w =>
    match body w with
    | (Return a, w') => (Return a, w')
    | (Throw e, w') => handler e w'
    end.

Definition existsSync (p : string) : Eff bool :=
  fun w => (Return (fs_existsSync (files w) p), w).

Definition readFileSync (p : string) : Eff string :=
  fun w =>
    match fs_readFileSync (files w) p with
    | inr content => (Return content, w)
    | inl e => (Throw e, w)
    end.

Definition lift_write (r : fs * option exn) (w : World)
    : outcome unit * World :=
  let w' := {| files := fst r; console := console w |} in
  match snd r with
  | None => (Return tt, w')
  | Some e => (Throw e, w')
  end.

Definition mkdirSync (dir : string) : Eff unit :=
  fun w => lift_write (fs_mkdirSync (files w) dir) w.

Definition writeFileSync (p content : string) : Eff unit :=
  fun w => lift_write (fs_writeFileSync (files w) p content) w.

Definition parse (content : string) : Eff Json.value :=
  fun w =>
    match JSON_parse content with
    | inr v => (Return v, w)
    | inl e => (Throw e, w)
    end.

Definition warn (msg : warning) : Eff unit :=
  fun w => (Return tt, {| files := files w; console := console w ++ [msg] |}).

Definition PATH_RULES_FILENAME : string := "path-rules.json".

Definition getPathRulesPath (workspaceRootPath : string) : string :=
  path_join [workspaceRootPath; "labels"; PATH_RULES_FILENAME].

Definition createDefaultConfig : PathRulesConfig Json.value :=
  {| version := 1; rules := [] |}.

Definition isValidRule (rule : Json.value) : bool :=
  if negb (Json.isObject rule) then false
  else
    Json.isString (Json.get rule "id")
    && Json.isString (Json.get rule "path")
    && (Json.isStr (Json.get rule "match") "exact"
        || Json.isStr (Json.get rule "match") "prefix")
    && Json.isString (Json.get rule "labelId").

(** The [for (const rule of parsed.rules)] loop; [rules] holds the entries
    pushed so far. *)
Fixpoint collectRules (entries : list Json.value) (rules : list Json.value)
    : Eff (list Json.value) :=
  match entries with
  | [] => ret rules
  | rule :: rest =>
      if isValidRule rule then collectRules rest (rules ++ [rule])
      else bind (warn (SkippingInvalidRule rule))
             (fun _ => collectRules rest rules)
  end.

Definition loadPathRulesConfig (workspaceRootPath : string)
    : Eff (PathRulesConfig Json.value) :=
  let configPath := getPathRulesPath workspaceRootPath in
  tryCatch
    (bind (existsSync configPath) (fun present =>
     if negb present then ret createDefaultConfig
     else
       bind (readFileSync configPath) (fun content =>
       bind (parse content) (fun parsed =>
       if negb (Json.isObject parsed)
       then bind (warn InvalidStructure) (fun _ => ret createDefaultConfig)
       else
         bind (match Json.get parsed "rules" with
               | Some (Json.Array entries) => collectRules entries []
               | _ => ret []
               end) (fun rules =>
         ret {| version := 1; rules := rules |})))))
    (fun error =>
       bind (warn (FailedToLoad error)) (fun _ => ret createDefaultConfig)).

(** The object [JSON.stringify] receives. *)
Definition configToJson (config : PathRulesConfig Json.value) : Json.value :=
  Json.Object
    (<["version" := Json.Number (version config)]>
       (<["rules" := Json.Array (rules config)]> ∅)).

Definition savePathRulesConfig (workspaceRootPath : string)
    (config : PathRulesConfig Json.value) : Eff unit :=
  let configPath := getPathRulesPath workspaceRootPath in
  let labelsDir := path_dirname configPath in
  bind (existsSync labelsDir) (fun present =>
  bind (if negb present then mkdirSync labelsDir else ret tt) (fun _ =>
  let content := JSON_stringify (configToJson config) in
  writeFileSync configPath content)).

(** The rules a parsed document contributes. *)
Definition validRules (parsed : Json.value) : list Json.value :=
  match Json.get parsed "rules" with
  | Some (Json.Array entries) => List.filter isValidRule entries
  | _ => []
  end.

(** The world after some more warnings. *)
Definition warned (w : World) (msgs : list warning) : World :=
  {| files := files w; console := console w ++ msgs |}.

End WithHost.
Arguments Return {host A} _.
Arguments Throw {host A} _.
End Storage.

(** ** An in-memory runtime for the store

    Files and directories are finite maps over POSIX paths; a read-only
    volume refuses every write.  [JSON.parse] is given by a table of the
    documents of interest (a text outside the table does not parse) and
    [JSON.stringify] by the caller. *)
Module MemHost.

Record state := {
  contents : gmap string string;
  directories : gset string;
  readOnly : bool
}.

Definition existsSync (st : state) (p : string) : bool :=
  bool_decide (is_Some (contents st !! p))
  || bool_decide (p ∈ directories st).

Definition readFileSync (st : state) (p : string) : string + string :=
  match contents st !! p with
  | Some content => inr content
  | None => inl "ENOENT"%string
  end.

Definition mkdirSync (st : state) (dir : string) : state * option string :=
  if readOnly st then (st, Some "EROFS"%string)
  else ({| contents := contents st;
           directories := {[dir]} ∪ directories st;
           readOnly := false |}, None).

Definition writeFileSync (st : state) (p content : string)
    : state * option string :=
  if readOnly st then (st, Some "EROFS"%string)
  else if bool_decide (Posix.dirname p ∈ directories st)
       then ({| contents := <[p := content]> (contents st);
                directories := directories st;
                readOnly := false |}, None)
       else (st, Some "ENOENT"%string).

Definition parseWith (documents : list (string * Json.value))
    (text : string) : string + Json.value :=
  match list_find (fun d => fst d = text) documents with
  | Some (_, (_, v)) => inr v
  | None => inl "SyntaxError"%string
  end.

Definition host (documents : list (string * Json.value))
    (stringify : Json.value -> string) : StoreHost := {|
  exn := string;
  fs := state;
  path_join := Posix.join;
  path_dirname := Posix.dirname;
  fs_existsSync := existsSync;
  fs_readFileSync := readFileSync;
  fs_mkdirSync := mkdirSync;
  fs_writeFileSync := writeFileSync;
  JSON_parse := parseWith documents;
  JSON_stringify := stringify
|}.

End MemHost.

(** ** The specification's reading of the prefix test, and the examples *)

(** The specification's reading of the prefix test: the relative path is
    empty, or its first segment is not the parent-traversal segment [..] and
    it is not absolute. *)
Definition startsWithParentSegment (rel : string) : bool :=
  match JsString.split "/" rel with
  | seg :: _ => String.eqb seg ".."
  | [] => false
  end.

Definition containedBySegments `{host : Host}
    (rulePath workingDirectory : string) : bool :=
  let rel := path_relative (normalizePath rulePath)
               (normalizePath workingDirectory) in
  String.eqb rel ""
  || (negb (startsWithParentSegment rel) && negb (path_isAbsolute rel)).

(** The rules of the specificity example. *)
Definition ruleA : PathRule.t :=
  PathRule.mk "r1" "/a" prefix "X" None None None.
Definition ruleAB : PathRule.t :=
  PathRule.mk "r2" "/a/b" prefix "Y" None None None.

(** Two rules of equal path length proposing two values of one label. *)
Definition rulePriority2 : PathRule.t :=
  PathRule.mk "r1" "/a/b" prefix "priority" (Some "2") None None.
Definition rulePriority3 : PathRule.t :=
  PathRule.mk "r2" "/a/b" prefix "priority" (Some "3") None None.

(** A stored document with one invalid entry (no [path]) between two valid
    ones, declaring version 7, and a workspace that holds it. *)
Definition validRule1 : Json.value :=
  Json.Object (list_to_map
    [("id", Json.Str "r1"); ("path", Json.Str "/a");
     ("match", Json.Str "prefix"); ("labelId", Json.Str "X")]).

Definition ruleWithoutPath : Json.value :=
  Json.Object (list_to_map
    [("id", Json.Str "r2"); ("match", Json.Str "exact");
     ("labelId", Json.Str "Y")]).

Definition validRule2 : Json.value :=
  Json.Object (list_to_map
    [("id", Json.Str "r3"); ("path", Json.Str "/b");
     ("match", Json.Str "exact"); ("labelId", Json.Str "Z");
     ("enabled", Json.Bool false)]).

Definition documentProps : gmap string Json.value :=
  list_to_map
    [("version", Json.Number 7);
     ("rules", Json.Array [validRule1; ruleWithoutPath; validRule2])].

Definition exampleHost : StoreHost :=
  MemHost.host [("doc", Json.Object documentProps)] (fun _ => "doc").

Definition exampleFiles : MemHost.state :=
  {| MemHost.contents := {[ "/ws/labels/path-rules.json" := "doc" ]};
     MemHost.directories := {[ "/ws"; "/ws/labels" ]};
     MemHost.readOnly := false |}.

Definition exampleWorld : Storage.World (host := exampleHost) :=
  @Storage.Build_World exampleHost exampleFiles [].

(** ** Auxiliary notions for the properties below *)

(** The nodes of a label, the label first and then its children from left
    to right, each with its own subtree. *)
Fixpoint flattenLabel (label : LabelConfig) : list LabelConfig :=
  label ::
  match label_children label with
  | Some children =>
      (fix go (ls : list LabelConfig) : list LabelConfig :=
         match ls with
         | [] => []
         | l :: ls' => flattenLabel l ++ go ls'
         end) children
  | None => []
  end.

(** The nodes of a label tree in depth-first order. *)
Fixpoint flattenLabels (labels : list LabelConfig) : list LabelConfig :=
  match labels with
  | [] => []
  | label :: rest => flattenLabel label ++ flattenLabels rest
  end.

(** The two tests a rule passes before its label entry is built: the path
    matches and, when a tree is given, the label is found in it. *)
Definition ruleApplies `{host : Host} (workingDirectory : string)
    (labels : option (list LabelConfig)) (r : PathRule.t) : bool :=
  matchesPath (PathRule.path r) workingDirectory (PathRule.match_ r)
  && match labels with
     | Some ls =>
         match findLabelById ls (PathRule.labelId r) with
         | Some _ => true
         | None => false
         end
     | None => true
     end.

(** A configuration cut down to the rules that are enabled and pass the two
    tests for a working directory. *)
Definition effectiveRules `{host : Host} (workingDirectory : string)
    (labels : option (list LabelConfig)) (config : PathRulesConfig PathRule.t)
    : PathRulesConfig PathRule.t :=
  {| version := version config;
     rules := filter (fun r => PathRule.enabled r <> Some false
                               /\ ruleApplies workingDirectory labels r = true)
                (rules config) |}.

(** Whether a string holds a given character, and a slash in particular. *)
Fixpoint hasChar (ch : ascii) (s : string) : bool :=
  match s with
  | EmptyString => false
  | String c s' => Ascii.eqb c ch || hasChar ch s'
  end.

Definition hasSlash (s : string) : bool := hasChar "/" s.

(** A segment as a normalized path has them: not empty, neither [.] nor
    [..], without a slash. *)
Definition validSegment (s : string) : Prop :=
  s <> ""%string /\ s <> "."%string /\ s <> ".."%string /\ hasSlash s = false.

(** The absolute path made of the given segments; [/] for none. *)
Definition absolutePath (segs : list string) : string :=
  "/" +:+ String.concat "/" segs.

(** A configuration to save and a runtime whose [JSON] knows its document. *)
Definition savedConfig : PathRulesConfig Json.value :=
  {| version := 1; rules := [validRule1; validRule2] |}.

Definition roundTripHost : StoreHost :=
  MemHost.host [("cfg", Storage.configToJson savedConfig)] (fun _ => "cfg").

Definition emptyWorkspace : Storage.World (host := roundTripHost) :=
  @Storage.Build_World roundTripHost
    {| MemHost.contents := ∅;
       MemHost.directories := {[ "/ws" ]};
       MemHost.readOnly := false |} [].

(** ** Trimming, as [String.prototype.trim] and the end-anchored regular
    expressions of the sources do it *)

Module JsText.

(** The characters [trim] removes, among the code units below 256: tab,
    line feed, vertical tab, form feed, carriage return, space and the
    no-break space. *)
Definition isWhiteSpace (c : ascii) : bool :=
  let n := N_of_ascii c in
  ((9 <=? n) && (n <=? 13) || (n =? 32) || (n =? 160))%N.

(** [s.replace(/^[set]+/, '')]: the longest run of [set] at the start goes. *)
Fixpoint stripStart (set : ascii -> bool) (s : string) : string :=
  match s with
  | EmptyString => ""
  | String c s' => if set c then stripStart set s' else s
  end.

(** [s.replace(/[set]+$/, '')]: the longest run of [set] at the end goes. *)
Fixpoint stripEnd (set : ascii -> bool) (s : string) : string :=
  match s with
  | EmptyString => ""
  | String c s' =>
      match stripEnd set s' with
      | EmptyString => if set c then "" else String c ""
      | r => String c r
      end
  end.

(** [s.trim()] *)
Definition trim (s : string) : string :=
  stripEnd isWhiteSpace (stripStart isWhiteSpace s).

Fixpoint allChars (set : ascii -> bool) (s : string) : bool :=
  match s with
  | EmptyString => true
  | String c s' => set c && allChars set s'
  end.

Definition firstChar (s : string) : option ascii :=
  match s with
  | EmptyString => None
  | String c _ => Some c
  end.

Fixpoint lastChar (s : string) : option ascii :=
  match s with
  | EmptyString => None
  | String c EmptyString => Some c
  | String _ s' => lastChar s'
  end.

End JsText.

(** ** utils/title-generator.ts *)

Module TitleGenerator.

(** The class of the two quote characters, double (code 34) and single. *)
Definition isQuote (c : ascii) : bool :=
  Ascii.eqb c "034" || Ascii.eqb c "'".

(** The class [[.!?]] *)
Definition isEndPunctuation (c : ascii) : bool :=
  Ascii.eqb c "." || Ascii.eqb c "!" || Ascii.eqb c "?".

(** [cleanTitle]: trim; drop the quotes at the start and at the end (the
    global replace of a leading or a trailing run of quotes); drop the
    punctuation at the end; trim again. *)
Definition cleanTitle (raw : string) : string :=
  let t := JsText.trim raw in
  let t := JsText.stripEnd isQuote (JsText.stripStart isQuote t) in
  let t := JsText.stripEnd isEndPunctuation t in
  JsText.trim t.

(** The blocks of a streamed message, of which the generator reads the text
    of the assistant's text blocks. *)
Inductive block :=
| TextBlock (text : string)
| OtherBlock.

Inductive message :=
| Assistant (content : list block)
| OtherMessage.

(** The two nested loops that build [title]. *)
Definition collectTitle (messages : list message) : string :=
  fold_left
    (fun title msg =>
       match msg with
       | Assistant content =>
           fold_left
             (fun title b =>
                match b with
                | TextBlock text => title +:+ text
                | OtherBlock => title
                end) content title
       | OtherMessage => title
       end) messages "".

(** What [generateSessionTitle] and [regenerateSessionTitle] return once the
    query has streamed [messages] without throwing; [None] is [null]. *)
Definition titleFromMessages (messages : list message) : option string :=
  let cleaned := cleanTitle (collectTitle messages) in
  if negb (String.eqb cleaned "")
     && (0 <? JsString.length cleaned)
     && (JsString.length cleaned <=? 50)
  then Some cleaned
  else None.

End TitleGenerator.

(** ** The global shortcut manager: accelerator validation *)

Module Shortcut.

Definition validModifiers : list string :=
  ["Command"; "Cmd"; "Control"; "Ctrl"; "CommandOrControl"; "CmdOrCtrl";
   "Alt"; "Option"; "AltGr"; "Shift"; "Super"; "Meta"].

(** [validModifiers.some(m => m.toLowerCase() === p.toLowerCase())] *)
Definition isModifier (p : string) : bool :=
  existsb
    (fun m => String.eqb (JsString.toLowerCase m) (JsString.toLowerCase p))
    validModifiers.

Definition isValidAccelerator (accelerator : string) : bool :=
  if String.eqb accelerator "" then false
  else
    let parts := map JsText.trim (JsString.split "+" accelerator) in
    if (Z.of_nat (length parts) <? 2) then false
    else existsb isModifier parts.

End Shortcut.

(** [t] lies in [s] between characters of [set1] and characters of [set2]. *)
Definition between (set1 set2 : ascii -> bool) (t s : string) : Prop :=
  exists pre post,
    s = pre +:+ t +:+ post
    /\ JsText.allChars set1 pre = true
    /\ JsText.allChars set2 post = true.

(** ** First-wins selection, resolved segments and an atomic save, as the
    specification words them *)

(** A third rule for the specificity example: the longest path, proposing the
    label of the shortest. *)
Definition ruleABC : PathRule.t :=
  PathRule.mk "r3" "/a/b/c" prefix "X" None None None.

(** First-wins over a list of rules in the order given: a rule yields a match
    when no rule before it in the list builds the same label entry. *)
Definition firstWins (rs : list PathRule.t) : list PathRuleMatch :=
  concat
    (imap (fun i r =>
             if bool_decide
                  (buildLabelEntry r ∈ (buildLabelEntry <$> take i rs))
             then []
             else [ {| rule := r; labelEntry := buildLabelEntry r |} ])
       rs).

(** What is left of the segments of a path once the empty and the [.]
    segments are dropped and each [..] has removed the segment before it, if
    there is one; [stack] holds the segments kept so far, last first. *)
Fixpoint resolveSegments (stack : list string) (segs : list string)
    : list string :=
  match segs with
  | [] => rev stack
  | seg :: rest =>
      if String.eqb seg "" || String.eqb seg "." then
        resolveSegments stack rest
      else if String.eqb seg ".." then resolveSegments (tail stack) rest
      else resolveSegments (seg :: stack) rest
  end.

Definition resolvedSegments (p : string) : list string :=
  resolveSegments [] (JsString.split "/" p).

(** The path that stands for [p] in a process whose working directory is
    [cwd]: [p] itself when it is absolute, [p] below [cwd] otherwise. *)
Definition fromCwd (cwd p : string) : string :=
  if Posix.isAbsolute p then p else cwd +:+ "/" +:+ p.

(** A save is atomic to its caller when the document read after the call is
    the new text if the call returned, and what it was before the call if the
    call threw. *)
Definition savedAtomically `{host : StoreHost} (workspaceRootPath : string)
    (config : PathRulesConfig Json.value) (w : Storage.World) : Prop :=
  let configPath := Storage.getPathRulesPath workspaceRootPath in
  let r := Storage.savePathRulesConfig workspaceRootPath config w in
  match fst r with
  | Storage.Return _ =>
      fs_readFileSync (Storage.files (snd r)) configPath
      = inr (JSON_stringify (Storage.configToJson config))
  | Storage.Throw _ =>
      fs_readFileSync (Storage.files (snd r)) configPath
      = fs_readFileSync (Storage.files w) configPath
  end.

(** ** A volume that has run full

    [fs.writeFileSync] opens its file with flag [w], which truncates it, and
    then writes the data; on a full volume the write fails with [ENOSPC] and
    leaves the file empty.  Everything else is as in [MemHost]. *)
Module FullDisk.

Definition writeFileSync (st : MemHost.state) (p content : string)
    : MemHost.state * option string :=
  if MemHost.readOnly st then (st, Some "EROFS"%string)
  else if bool_decide (Posix.dirname p ∈ MemHost.directories st)
       then ({| MemHost.contents := <[p := ""%string]> (MemHost.contents st);
                MemHost.directories := MemHost.directories st;
                MemHost.readOnly := false |}, Some "ENOSPC"%string)
       else (st, Some "ENOENT"%string).

Definition host (documents : list (string * Json.value))
    (stringify : Json.value -> string) : StoreHost := {|
  exn := string;
  fs := MemHost.state;
  path_join := Posix.join;
  path_dirname := Posix.dirname;
  fs_existsSync := MemHost.existsSync;
  fs_readFileSync := MemHost.readFileSync;
  fs_mkdirSync := MemHost.mkdirSync;
  fs_writeFileSync := writeFileSync;
  JSON_parse := MemHost.parseWith documents;
  JSON_stringify := stringify
|}.

End FullDisk.

(** A workspace on a full volume that holds the document of [exampleFiles];
    the configuration to save serializes to [cfg]. *)
Definition fullDiskHost : StoreHost :=
  FullDisk.host
    [("doc", Json.Object documentProps);
     ("cfg", Storage.configToJson savedConfig)] (fun _ => "cfg").

Definition fullDiskWorld : Storage.World (host := fullDiskHost) :=
  @Storage.Build_World fullDiskHost exampleFiles [].

(** The same workspace on a read-only volume of [exampleHost]. *)
Definition readOnlyWorld : Storage.World (host := exampleHost) :=
  @Storage.Build_World exampleHost
    {| MemHost.contents := {[ "/ws/labels/path-rules.json" := "doc" ]};
       MemHost.directories := {[ "/ws"; "/ws/labels" ]};
       MemHost.readOnly := true |} [].

(** * Properties *)

(** ** The sort *)

Section SortFacts.
Context {A : Type} (key : A -> Z).

Lemma insertSorted_perm x l : insertSorted (descendingBy key) x l ≡ₚ x :: l.
Proof.
  induction l as [|y l IH]; simpl; [done|].
  destruct (descendingBy key x y <=? 0); [done|].
  rewrite IH. apply Permutation_swap.
Qed.

Lemma sort_perm l : sort (descendingBy key) l ≡ₚ l.
Proof.
  induction l as [|x l IH]; simpl; [done|].
  unfold sort in IH. by rewrite insertSorted_perm, IH.
Qed.

Lemma insertSorted_sorted x l :
  StronglySorted (fun a b => key b <= key a) l ->
  StronglySorted (fun a b => key b <= key a)
    (insertSorted (descendingBy key) x l).
Proof.
  induction 1 as [|y l Hl IH Hy]; simpl.
  - repeat constructor.
  - destruct (Z.leb_spec (descendingBy key x y) 0) as [Hle|Hgt].
    + unfold descendingBy in Hle. constructor; [by constructor|].
      constructor; [lia|].
      eapply Forall_impl; [exact Hy|]. simpl. intros z Hz. lia.
    + unfold descendingBy in Hgt. constructor; [exact IH|].
      rewrite insertSorted_perm. constructor; [lia | exact Hy].
Qed.

Lemma sort_sorted l :
  StronglySorted (fun a b => key b <= key a) (sort (descendingBy key) l).
Proof.
  induction l as [|x l IH]; simpl; [constructor|].
  by apply insertSorted_sorted.
Qed.

(** Stability: the elements of one key keep their order. *)
Lemma insertSorted_filter_key n x l :
  filter (fun a => key a = n) (insertSorted (descendingBy key) x l)
  = filter (fun a => key a = n) (x :: l).
Proof.
  induction l as [|y l IH]; simpl; [done|].
  destruct (Z.leb_spec (descendingBy key x y) 0) as [Hle|Hgt]; [done|].
  unfold descendingBy in Hgt.
  rewrite filter_cons, IH, !filter_cons.
  destruct (decide (key y = n)), (decide (key x = n)); try done; lia.
Qed.

Lemma sort_filter_key n l :
  filter (fun a => key a = n) (sort (descendingBy key) l)
  = filter (fun a => key a = n) l.
Proof.
  induction l as [|x l IH]; [done|].
  change (sort (descendingBy key) (x :: l))
    with (insertSorted (descendingBy key) x (sort (descendingBy key) l)).
  by rewrite insertSorted_filter_key, !filter_cons, IH.
Qed.

End SortFacts.

Lemma sublist_filter_mono {A} (P : A -> Prop) `{!forall x, Decision (P x)}
    (l1 l2 : list A) :
  l1 `sublist_of` l2 -> filter P l1 `sublist_of` filter P l2.
Proof.
  induction 1 as [|x l1 l2 _ IH|x l1 l2 _ IH]; [constructor| |].
  - rewrite !filter_cons. destruct (decide (P x)); [by constructor|done].
  - rewrite filter_cons. destruct (decide (P x)); [by constructor|done].
Qed.

Lemma StronglySorted_sublist {A} (R : A -> A -> Prop) (l1 l2 : list A) :
  l1 `sublist_of` l2 -> StronglySorted R l2 -> StronglySorted R l1.
Proof.
  induction 1 as [|x l1 l2 Hs IH|x l1 l2 Hs IH]; intros Hl2; [done| |].
  - apply StronglySorted_inv in Hl2 as [Hl2 Hx].
    constructor; [by apply IH|].
    rewrite Forall_forall in *. intros y Hy. apply Hx.
    by eapply elem_of_sublist.
  - apply StronglySorted_inv in Hl2 as [Hl2 _]. by apply IH.
Qed.

(** ** The matcher *)

Section MatcherFacts.
Context {host : Host}.

(** What the prefix branch computes: a test on the first two characters of
    the relative path. *)
Lemma matchesPath_prefix_unfold rulePath workingDirectory :
  let rel := path_relative (normalizePath rulePath)
               (normalizePath workingDirectory) in
  matchesPath rulePath workingDirectory prefix = true <->
  rel = ""%string \/
  (JsString.startsWith rel ".." = false /\ path_isAbsolute rel = false).
Proof.
  unfold matchesPath. cbv zeta.
  rewrite orb_true_iff, andb_true_iff, !negb_true_iff, String.eqb_eq.
  reflexivity.
Qed.

Lemma matchesPath_exact_unfold rulePath workingDirectory :
  matchesPath rulePath workingDirectory exact = true <->
  normalizePath rulePath = normalizePath workingDirectory.
Proof. unfold matchesPath. apply String.eqb_eq. Qed.

End MatcherFacts.

(** ** The evaluator *)

Section EvaluatorFacts.
Context {host : Host}.

(** The recursion of [findLabelById] as the source writes it. *)
Lemma findLabelById_cons label rest labelId :
  findLabelById (label :: rest) labelId =
  if String.eqb (label_id label) labelId then Some label
  else match label_children label with
       | Some children =>
           match findLabelById children labelId with
           | Some found => Some found
           | None => findLabelById rest labelId
           end
       | None => findLabelById rest labelId
       end.
Proof.
  cbn [findLabelById]. destruct label as [i cs]. cbn [findLabelIn label_id
    label_children].
  destruct (String.eqb i labelId); [done|].
  destruct cs as [children|]; [|done].
  replace ((fix loop (ls : list LabelConfig) : option LabelConfig :=
              match ls with
              | [] => None
              | l :: ls' =>
                  match findLabelIn labelId l with
                  | Some found => Some found
                  | None => loop ls'
                  end
              end) children) with (findLabelById children labelId); [done|].
  induction children as [|c children IH]; [done|].
  cbn [findLabelById]. by rewrite IH.
Qed.

Lemma evaluateLoop_sublist wd labels rs seen :
  rule <$> evaluateLoop wd labels rs seen `sublist_of` rs.
Proof.
  revert seen. induction rs as [|r rs IH]; intros seen; simpl; [constructor|].
  destruct (negb (matchesPath _ _ _)); [by constructor|].
  destruct (match labels with Some _ => _ | None => _ end); [by constructor|].
  destruct (bool_decide _); [by constructor|].
  rewrite fmap_cons. simpl. by constructor.
Qed.

Lemma evaluatePathRules_sublist wd config labels :
  rule <$> evaluatePathRules wd config labels `sublist_of` sortedRules config.
Proof.
  unfold evaluatePathRules. destruct wd as [wd|]; [|apply sublist_nil_l].
  destruct (String.eqb wd ""); [apply sublist_nil_l|].
  apply evaluateLoop_sublist.
Qed.

End EvaluatorFacts.

(** X1.  The boundary cases of the prefix mode under POSIX paths: a rule for
    /a/b does not match /a/b2 and matches /a/b and /a/b/c. *)
Lemma matchesPath_prefix_boundary cwd :
  matchesPath (host := Posix.host cwd) "/a/b" "/a/b2" prefix = false
  /\ matchesPath (host := Posix.host cwd) "/a/b" "/a/b" prefix = true
  /\ matchesPath (host := Posix.host cwd) "/a/b" "/a/b/c" prefix = true.
Proof. repeat split. Qed.

(** C4.  A directory below the rule path whose name begins with two dots:
    the relative path is [..foo], a single segment that is not [..] and not
    absolute, so the segment-wise test accepts it, while [matchesPath]
    rejects it because the string starts with two dots. *)
Theorem matchesPath_prefix_rejects_dotdot_name cwd :
  path_relative (Host := Posix.host cwd)
    (normalizePath (host := Posix.host cwd) "/a/b")
    (normalizePath (host := Posix.host cwd) "/a/b/..foo") = "..foo"%string
  /\ startsWithParentSegment "..foo" = false
  /\ path_isAbsolute (Host := Posix.host cwd) "..foo" = false
  /\ containedBySegments (host := Posix.host cwd) "/a/b" "/a/b/..foo" = true
  /\ matchesPath (host := Posix.host cwd) "/a/b" "/a/b/..foo" prefix = false.
Proof. repeat split. Qed.

(** ** The merger *)

Lemma splitHead_prefix sep s :
  JsString.splitHead sep s = s
  \/ String.prefix (JsString.splitHead sep s +:+ sep) s = true.
Proof.
  induction s as [|c s IH].
  - left. simpl. by destruct sep.
  - cbn [JsString.splitHead].
    destruct (String.prefix sep (String c s)) eqn:Hp; [by right|].
    destruct IH as [->|IH]; [by left|right].
    change (String c (JsString.splitHead sep s) +:+ sep)
      with (String c (JsString.splitHead sep s +:+ sep)).
    cbn [String.prefix]. by destruct (ascii_dec c c).
Qed.

(** Every entry carries its own bare id. *)
Lemma sharesBareId_self e : sharesBareId (JsString.splitHead "::" e) e = true.
Proof.
  unfold sharesBareId, JsString.startsWith.
  destruct (splitHead_prefix "::" e) as [-> | ->].
  - by rewrite String.eqb_refl.
  - apply orb_true_r.
Qed.

(** Two entries with the same bare id conflict. *)
Lemma sharesBareId_same_bare l e :
  JsString.splitHead "::" l = JsString.splitHead "::" e ->
  sharesBareId (JsString.splitHead "::" e) l = true.
Proof. intros <-. apply sharesBareId_self. Qed.

Lemma hasExistingValue_true (S : gset string) bareId :
  hasExistingValue S bareId = true <->
  exists l, l ∈ S /\ sharesBareId bareId l = true.
Proof.
  unfold hasExistingValue. rewrite existsb_exists.
  split; intros (l & Hl & Hb); exists l; split; try done.
  - by apply elem_of_elements, list_elem_of_In.
  - by apply list_elem_of_In, elem_of_elements.
Qed.

Lemma hasExistingValue_false (S : gset string) bareId :
  hasExistingValue S bareId = false <->
  forall l, l ∈ S -> sharesBareId bareId l = false.
Proof.
  rewrite <- not_true_iff_false, hasExistingValue_true. split.
  - intros Hn l Hl. apply not_true_iff_false. intros Hb. apply Hn; eauto.
  - intros Hall (l & Hl & Hb). rewrite (Hall l Hl) in Hb. done.
Qed.

Lemma hasExistingValue_mono (S S' : gset string) bareId :
  S ⊆ S' -> hasExistingValue S bareId = true ->
  hasExistingValue S' bareId = true.
Proof.
  rewrite !hasExistingValue_true. intros Hsub (l & Hl & Hb).
  exists l. split; [set_solver|done].
Qed.

(** An entry is staged exactly when it is new and nothing existing shares
    its bare id. *)
Lemma elem_of_newLabels (S : gset string) ms e :
  e ∈ newLabels S ms <->
  (exists m, m ∈ ms /\ labelEntry m = e)
  /\ (e ∉ S) /\ hasExistingValue S (JsString.splitHead "::" e) = false.
Proof.
  induction ms as [|m ms IH]; cbn [newLabels].
  - split; [by intros ?%elem_of_nil|]. intros [(m & ?%elem_of_nil & _) _]. done.
  - assert (Hskip : labelEntry m ∈ S
                    \/ hasExistingValue S
                         (JsString.splitHead "::" (labelEntry m)) = true ->
              (e ∈ newLabels S ms <->
               (exists m', m' ∈ m :: ms /\ labelEntry m' = e)
               /\ (e ∉ S)
               /\ hasExistingValue S (JsString.splitHead "::" e) = false)).
    { intros Hm. rewrite IH. split.
      - intros [(m' & Hm' & He) Hrest]. split; [|done].
        exists m'. split; [by right|done].
      - intros [(m' & Hm' & He) [Hnin Hno]]. split; [|done].
        apply elem_of_cons in Hm' as [-> | Hm']; [|by eauto].
        subst e. destruct Hm as [Hm|Hm]; [done|congruence]. }
    case_bool_decide as Hin; [by apply Hskip; left|].
    destruct (hasExistingValue S (JsString.splitHead "::" (labelEntry m)))
      eqn:Hhas; [by apply Hskip; right|].
    rewrite elem_of_cons, IH. split.
    + intros [-> | [(m' & Hm' & He) Hrest]].
      * split; [|done]. exists m. split; [by left|done].
      * split; [|done]. exists m'. split; [by right|done].
    + intros [(m' & Hm' & He) Hrest].
      apply elem_of_cons in Hm' as [-> | Hm']; [by left|].
      right. split; [by eauto|done].
Qed.

Lemma newLabels_sublist (S : gset string) ms :
  newLabels S ms `sublist_of` (labelEntry <$> ms).
Proof.
  induction ms as [|m ms IH]; simpl; [constructor|].
  destruct (bool_decide _); [by constructor|].
  destruct (hasExistingValue _ _); by constructor.
Qed.

(** Nothing is staged once the set holds the earlier additions. *)
Lemma newLabels_nil_after (S S' : gset string) ms :
  S ⊆ S' -> (forall e, e ∈ newLabels S ms -> e ∈ S') ->
  newLabels S' ms = [].
Proof.
  intros Hsub. induction ms as [|m ms IH]; cbn [newLabels]; [done|].
  intros Hstaged.
  case_bool_decide as Hin.
  { rewrite bool_decide_eq_true_2 by set_solver. by apply IH. }
  destruct (hasExistingValue S _) eqn:Hhas.
  { case_bool_decide; [by apply IH|].
    rewrite (hasExistingValue_mono S S') by done. by apply IH. }
  rewrite bool_decide_eq_true_2 by (apply Hstaged; by left).
  apply IH. intros e He. apply Hstaged. by right.
Qed.

Lemma applyPathRuleMatches_Some cur ms :
  applyPathRuleMatches (Some cur) ms
  = Some (cur ++ newLabels (list_to_set cur) ms).
Proof.
  unfold applyPathRuleMatches. destruct ms as [|m ms].
  - by rewrite app_nil_r.
  - cbv zeta. change (default [] (Some cur)) with cur.
    destruct (newLabels (list_to_set cur) (m :: ms)); [by rewrite app_nil_r|done].
Qed.

Lemma applyPathRuleMatches_default cur ms :
  default [] (applyPathRuleMatches cur ms)
  = default [] cur ++ newLabels (list_to_set (default [] cur)) ms.
Proof.
  destruct cur as [cur|]; [by rewrite applyPathRuleMatches_Some|].
  unfold applyPathRuleMatches. destruct ms as [|m ms]; [done|].
  cbv zeta. change (default [] None) with (@nil string).
  by destruct (newLabels (list_to_set []) (m :: ms)).
Qed.

Lemma newLabels_app (S : gset string) ms1 ms2 :
  newLabels S (ms1 ++ ms2) = newLabels S ms1 ++ newLabels S ms2.
Proof.
  induction ms1 as [|m ms1 IH]; [done|].
  rewrite <- app_comm_cons. cbn [newLabels]. rewrite IH.
  case_bool_decide; [done|]. by destruct (hasExistingValue _ _).
Qed.

Lemma newLabels_cons_fresh (cur : list string) m ms :
  (forall l, l ∈ cur ->
     sharesBareId (JsString.splitHead "::" (labelEntry m)) l = false) ->
  newLabels (list_to_set cur) (m :: ms)
  = labelEntry m :: newLabels (list_to_set cur) ms.
Proof.
  intros Hfresh. cbn [newLabels].
  rewrite bool_decide_eq_false_2.
  - replace (hasExistingValue _ _) with false; [done|].
    symmetry. apply hasExistingValue_false. intros l Hl.
    apply Hfresh. by apply elem_of_list_to_set in Hl.
  - rewrite elem_of_list_to_set. intros Hin.
    specialize (Hfresh _ Hin). by rewrite sharesBareId_self in Hfresh.
Qed.

(** Twice is once, for any list of matches. *)
Lemma applyPathRuleMatches_twice cur ms :
  let once := applyPathRuleMatches cur ms in
  applyPathRuleMatches once ms = once
  /\ newLabels (list_to_set (default [] once)) ms = [].
Proof.
  intros once.
  assert (Hnil : newLabels (list_to_set (default [] once)) ms = []).
  { subst once. rewrite applyPathRuleMatches_default.
    apply newLabels_nil_after with (S := list_to_set (default [] cur)).
    - intros x. rewrite !elem_of_list_to_set, elem_of_app. by left.
    - intros e He. rewrite elem_of_list_to_set, elem_of_app. by right. }
  split; [|done].
  unfold applyPathRuleMatches at 1. destruct ms as [|m ms]; [done|].
  cbv zeta. by rewrite Hnil.
Qed.

(** C1.  Evaluating and applying a second time, on the labels the first
    application returned, returns those labels again and stages nothing. *)
Theorem evaluate_apply_idempotent `{host : Host}
    (workingDirectory : option string) (config : PathRulesConfig PathRule.t)
    (labels : option (list LabelConfig))
    (currentLabels : option (list string)) :
  let once :=
    applyPathRuleMatches currentLabels
      (evaluatePathRules workingDirectory config labels) in
  let matches2 := evaluatePathRules workingDirectory config labels in
  applyPathRuleMatches once matches2 = once
  /\ newLabels (list_to_set (default [] once)) matches2 = [].
Proof. apply applyPathRuleMatches_twice. Qed.

(** C2.  The result of [applyPathRuleMatches] is the input list followed by
    the staged entries, which are taken from the matches in match order;
    every entry of the input is found at its old index. *)
Theorem applyPathRuleMatches_appends (currentLabels : option (list string))
    (matches : list PathRuleMatch) :
  let cur := default [] currentLabels in
  let out := default [] (applyPathRuleMatches currentLabels matches) in
  let added := newLabels (list_to_set cur) matches in
  out = cur ++ added
  /\ added `sublist_of` (labelEntry <$> matches)
  /\ (forall i x, cur !! i = Some x -> out !! i = Some x)
  /\ take (length cur) out = cur
  /\ applyPathRuleMatches (Some cur) matches = Some (cur ++ added)
  /\ (applyPathRuleMatches None matches = None
      \/ applyPathRuleMatches None matches = Some (newLabels ∅ matches)).
Proof.
  intros cur out added.
  assert (Hout : out = cur ++ added) by apply applyPathRuleMatches_default.
  repeat split.
  - done.
  - apply newLabels_sublist.
  - intros i x Hi. rewrite Hout. by apply lookup_app_l_Some.
  - rewrite Hout. by rewrite take_app_length.
  - apply applyPathRuleMatches_Some.
  - unfold applyPathRuleMatches. destruct matches as [|m ms]; [by left|].
    cbv zeta. change (list_to_set (default [] None)) with (∅ : gset string).
    destruct (newLabels ∅ (m :: ms)); [by left|by right].
Qed.

(** C3, as stated, fails: two rules of equal path length propose priority::2
    and priority::3 for /a/b, no existing label has the bare id priority, and
    both entries are staged. *)
Lemma apply_second_value_is_staged :
  (labelEntry <$>
     evaluatePathRules (host := Posix.host "/") (Some "/a/b")
       {| version := 1; rules := [rulePriority2; rulePriority3] |} None)
  = ["priority::2"; "priority::3"]
  /\ applyPathRuleMatches (Some ["bug"])
       (evaluatePathRules (host := Posix.host "/") (Some "/a/b")
          {| version := 1; rules := [rulePriority2; rulePriority3] |} None)
     = Some ["bug"; "priority::2"; "priority::3"]
  /\ newLabels (list_to_set ["bug"])
       (evaluatePathRules (host := Posix.host "/") (Some "/a/b")
          {| version := 1; rules := [rulePriority2; rulePriority3] |} None)
     <> ["priority::2"].
Proof. vm_compute. repeat split; congruence. Qed.

(** C3, amended.  When one evaluation yields two matches with the same bare
    id and no existing label carries that bare id, both entries are staged,
    in match order: the check looks at the existing labels only. *)
Theorem apply_stages_both_values `{host : Host}
    (workingDirectory : option string) (config : PathRulesConfig PathRule.t)
    (labels : option (list LabelConfig)) (cur : list string)
    (pre mid post : list PathRuleMatch) (m1 m2 : PathRuleMatch) :
  evaluatePathRules workingDirectory config labels
    = pre ++ m1 :: mid ++ m2 :: post ->
  JsString.splitHead "::" (labelEntry m1)
    = JsString.splitHead "::" (labelEntry m2) ->
  (forall l, l ∈ cur ->
     sharesBareId (JsString.splitHead "::" (labelEntry m1)) l = false) ->
  exists a b c,
    newLabels (list_to_set cur)
      (evaluatePathRules workingDirectory config labels)
      = a ++ labelEntry m1 :: b ++ labelEntry m2 :: c
    /\ applyPathRuleMatches (Some cur)
         (evaluatePathRules workingDirectory config labels)
       = Some (cur ++ a ++ labelEntry m1 :: b ++ labelEntry m2 :: c).
Proof.
  intros -> Hbare Hfresh.
  exists (newLabels (list_to_set cur) pre), (newLabels (list_to_set cur) mid),
         (newLabels (list_to_set cur) post).
  assert (Hnew : newLabels (list_to_set cur) (pre ++ m1 :: mid ++ m2 :: post)
                 = newLabels (list_to_set cur) pre ++ labelEntry m1
                   :: newLabels (list_to_set cur) mid ++ labelEntry m2
                   :: newLabels (list_to_set cur) post).
  { rewrite newLabels_app, newLabels_cons_fresh by done.
    rewrite newLabels_app, newLabels_cons_fresh; [done|].
    by rewrite <- Hbare. }
  split; [done|]. by rewrite applyPathRuleMatches_Some, Hnew.
Qed.

Lemma apply_stages_both_values_witness :
  exists a b c,
    newLabels (list_to_set ["bug"])
      (evaluatePathRules (host := Posix.host "/") (Some "/a/b")
         {| version := 1; rules := [rulePriority2; rulePriority3] |} None)
      = a ++ "priority::2" :: b ++ "priority::3" :: c
    /\ applyPathRuleMatches (Some ["bug"])
         (evaluatePathRules (host := Posix.host "/") (Some "/a/b")
            {| version := 1; rules := [rulePriority2; rulePriority3] |} None)
       = Some (["bug"] ++ a ++ "priority::2" :: b ++ "priority::3" :: c).
Proof.
  apply (apply_stages_both_values (host := Posix.host "/")
           (Some "/a/b")
           {| version := 1; rules := [rulePriority2; rulePriority3] |} None
           ["bug"] [] [] []
           {| rule := rulePriority2; labelEntry := "priority::2" |}
           {| rule := rulePriority3; labelEntry := "priority::3" |}).
  - vm_compute. reflexivity.
  - vm_compute. reflexivity.
  - intros l Hl. apply list_elem_of_singleton in Hl. subst l.
    vm_compute. reflexivity.
Defined.

Lemma prefix_nil s : String.prefix "" s = true.
Proof. by destruct s. Qed.

Lemma prefix_cons c s1 s2 :
  String.prefix (String c s1) (String c s2) = String.prefix s1 s2.
Proof. cbn [String.prefix]. by destruct (ascii_dec c c). Qed.

Lemma append_nil_l s : "" +:+ s = s.
Proof. reflexivity. Qed.

Lemma append_cons c s1 s2 : String c s1 +:+ s2 = String c (s1 +:+ s2).
Proof. reflexivity. Qed.

(** An existing valued entry [b::v] blocks any proposal [b::v'], whatever
    the characters of [b]. *)
Lemma sharesBareId_valued b v v' :
  sharesBareId (JsString.splitHead "::" (b +:+ "::" +:+ v'))
    (b +:+ "::" +:+ v) = true.
Proof.
  unfold sharesBareId, JsString.startsWith. apply orb_true_iff. right.
  induction b as [|c b IH].
  - rewrite !append_nil_l, !append_cons, !append_nil_l.
    cbn [JsString.splitHead]. rewrite !prefix_cons, prefix_nil.
    rewrite append_nil_l. by rewrite !prefix_cons, prefix_nil.
  - rewrite !(append_cons c b). cbn [JsString.splitHead].
    destruct (String.prefix "::" (String c (b +:+ "::" +:+ v'))) eqn:Hp.
    + rewrite append_nil_l.
      destruct b as [|d b].
      * rewrite !append_nil_l, !append_cons, !append_nil_l in Hp |- *.
        cbn [String.prefix] in Hp.
        destruct (ascii_dec ":" c) as [<-|]; [|discriminate].
        by rewrite !prefix_cons, prefix_nil.
      * rewrite !(append_cons d b) in Hp |- *.
        cbn [String.prefix] in Hp.
        destruct (ascii_dec ":" c) as [<-|]; [|discriminate].
        destruct (ascii_dec ":" d) as [<-|]; [|discriminate].
        by rewrite !prefix_cons, prefix_nil.
    + by rewrite append_cons, prefix_cons.
Qed.

(** C5.  With an entry [l] among the existing labels, no staged entry has
    the bare id of [l]; when every proposal has that bare id, for instance a
    different value for it, the labels come back unchanged. *)
Theorem apply_keeps_existing_value (cur : list string)
    (matches : list PathRuleMatch) (l : string) :
  l ∈ cur ->
  (forall e, e ∈ newLabels (list_to_set cur) matches ->
     JsString.splitHead "::" e <> JsString.splitHead "::" l)
  /\ ((forall m, m ∈ matches ->
         JsString.splitHead "::" (labelEntry m) = JsString.splitHead "::" l) ->
      applyPathRuleMatches (Some cur) matches = Some cur)
  /\ (forall b v v' r,
        l = b +:+ "::" +:+ v ->
        applyPathRuleMatches (Some cur)
          [{| rule := r; labelEntry := b +:+ "::" +:+ v' |}] = Some cur).
Proof.
  intros Hl.
  assert (Hno : forall e, e ∈ newLabels (list_to_set cur) matches ->
     JsString.splitHead "::" e <> JsString.splitHead "::" l).
  { intros e He Hbare. apply elem_of_newLabels in He as (_ & _ & Hhas).
    rewrite hasExistingValue_false in Hhas.
    specialize (Hhas l ltac:(by apply elem_of_list_to_set)).
    by rewrite sharesBareId_same_bare in Hhas. }
  split; [exact Hno|split].
  - intros Hall. rewrite applyPathRuleMatches_Some.
    destruct (newLabels (list_to_set cur) matches) as [|e es] eqn:Hnew;
      [by rewrite app_nil_r|].
    exfalso.
    assert (He : e ∈ newLabels (list_to_set cur) matches)
      by (rewrite Hnew; by left).
    pose proof (Hno e ltac:(by left)) as Hne.
    apply elem_of_newLabels in He as ((m & Hm & <-) & _). by apply Hne, Hall.
  - intros b v v' r ->. rewrite applyPathRuleMatches_Some. cbn [newLabels labelEntry].
    case_bool_decide; [by rewrite app_nil_r|].
    replace (hasExistingValue _ _) with true; [by rewrite app_nil_r|].
    symmetry. apply hasExistingValue_true.
    exists (b +:+ "::" +:+ v). split; [by apply elem_of_list_to_set|].
    apply sharesBareId_valued.
Qed.

Lemma apply_keeps_existing_value_witness :
  (forall e,
     e ∈ newLabels (list_to_set ["bug"; "priority::2"])
           [{| rule := rulePriority3; labelEntry := "priority::3" |}] ->
     JsString.splitHead "::" e <> JsString.splitHead "::" "priority::2")
  /\ ((forall m, m ∈ [{| rule := rulePriority3; labelEntry := "priority::3" |}] ->
         JsString.splitHead "::" (labelEntry m)
         = JsString.splitHead "::" "priority::2") ->
      applyPathRuleMatches (Some ["bug"; "priority::2"])
        [{| rule := rulePriority3; labelEntry := "priority::3" |}]
      = Some ["bug"; "priority::2"])
  /\ (forall b v v' r,
        "priority::2"%string = b +:+ "::" +:+ v ->
        applyPathRuleMatches (Some ["bug"; "priority::2"])
          [{| rule := r; labelEntry := b +:+ "::" +:+ v' |}]
        = Some ["bug"; "priority::2"]).
Proof.
  apply (apply_keeps_existing_value ["bug"; "priority::2"]
           [{| rule := rulePriority3; labelEntry := "priority::3" |}]
           "priority::2").
  apply elem_of_cons. right. apply elem_of_cons. left. reflexivity.
Defined.

Example apply_valued_conflict_example :
  applyPathRuleMatches (Some ["bug"; "priority::2"])
    [{| rule := rulePriority3; labelEntry := "priority::3" |}]
  = Some ["bug"; "priority::2"].
Proof. vm_compute. reflexivity. Qed.

(** ** The store *)

Section StorageFacts.
Context {host : StoreHost}.
Import Storage.

Lemma warned_nil w : warned w [] = w.
Proof. destruct w. unfold warned. simpl. by rewrite app_nil_r. Qed.

Lemma collectRules_spec entries acc w :
  collectRules entries acc w
  = (Return (acc ++ List.filter isValidRule entries),
     warned w (SkippingInvalidRule
                 <$> List.filter (fun r => negb (isValidRule r)) entries)).
Proof.
  revert acc w. induction entries as [|r entries IH]; intros acc w.
  - simpl. unfold ret. by rewrite app_nil_r, warned_nil.
  - cbn [collectRules List.filter]. destruct (isValidRule r); cbn [negb].
    + rewrite IH. by rewrite <- app_assoc.
    + unfold bind, warn. rewrite IH. unfold warned. simpl.
      by rewrite <- app_assoc.
Qed.

(** The whole of [loadPathRulesConfig], with the monad and the loop
    unfolded. *)
Lemma loadPathRulesConfig_unfold root w :
  loadPathRulesConfig root w =
  let p := getPathRulesPath root in
  if fs_existsSync (files w) p then
    match fs_readFileSync (files w) p with
    | inl e => (Return createDefaultConfig, warned w [FailedToLoad e])
    | inr content =>
        match JSON_parse content with
        | inl e => (Return createDefaultConfig, warned w [FailedToLoad e])
        | inr parsed =>
            if Json.isObject parsed then
              (Return {| version := 1; rules := validRules parsed |},
               warned w
                 (match Json.get parsed "rules" with
                  | Some (Json.Array entries) =>
                      SkippingInvalidRule
                        <$> List.filter (fun r => negb (isValidRule r)) entries
                  | _ => []
                  end))
            else (Return createDefaultConfig, warned w [InvalidStructure])
        end
    end
  else (Return createDefaultConfig, w).
Proof.
  unfold loadPathRulesConfig, tryCatch, bind, existsSync, readFileSync, parse.
  cbv zeta.
  destruct (fs_existsSync _ _); [|done]. cbn [negb].
  destruct (fs_readFileSync _ _) as [e|content]; [done|].
  destruct (JSON_parse content) as [e|parsed]; [done|].
  destruct (Json.isObject parsed); cbn [negb]; [|done].
  unfold validRules.
  destruct (Json.get parsed "rules") as [[| | | |entries|]|];
    try (unfold ret; by rewrite warned_nil).
  by rewrite collectRules_spec.
Qed.


End StorageFacts.



Lemma validRules_ignores_version props :
  Storage.validRules (Json.Object (delete "version" props))
  = Storage.validRules (Json.Object props).
Proof.
  unfold Storage.validRules. cbn [Json.get].
  by rewrite lookup_delete_ne.
Qed.

(** C10.  Whatever the stored document, the configuration that
    [loadPathRulesConfig] returns has version 1; for a document that parses to
    an object, the result is the one of the same document without its
    [version] field. *)
Theorem loadPathRulesConfig_version_one `{host : StoreHost}
    (root : string) (w : Storage.World) :
  let p := Storage.getPathRulesPath root in
  let r := Storage.loadPathRulesConfig root w in
  (exists config, fst r = Storage.Return config /\ version config = 1)
  /\ (forall content props,
        fs_existsSync (Storage.files w) p = true ->
        fs_readFileSync (Storage.files w) p = inr content ->
        JSON_parse content = inr (Json.Object props) ->
        fst r = Storage.Return
                  {| version := 1;
                     rules := Storage.validRules
                                (Json.Object (delete "version" props)) |}).
Proof.
  intros p r. subst r p. rewrite loadPathRulesConfig_unfold. cbv zeta. split.
  - destruct (fs_existsSync _ _); [|by eauto].
    destruct (fs_readFileSync _ _) as [e|content]; [by eauto|].
    destruct (JSON_parse content) as [e|parsed]; [by eauto|].
    destruct (Json.isObject parsed); by eauto.
  - intros content props -> -> ->. cbn [Json.isObject fst].
    by rewrite validRules_ignores_version.
Qed.

Lemma loadPathRulesConfig_version_one_witness :
  documentProps !! "version" = Some (Json.Number 7)
  /\ fst (Storage.loadPathRulesConfig (host := exampleHost) "/ws" exampleWorld)
     = Storage.Return
         {| version := 1;
            rules := Storage.validRules
                       (Json.Object (delete "version" documentProps)) |}.
Proof.
  split; [vm_compute; reflexivity|].
  destruct (loadPathRulesConfig_version_one (host := exampleHost)
              "/ws" exampleWorld) as [_ H].
  apply (H "doc" documentProps); vm_compute; reflexivity.
Defined.

(** ** Saving *)

Section SaveFacts.
Context {host : StoreHost}.
Import Storage.

(** The whole of [savePathRulesConfig]: the directory test, [mkdirSync]
    when the directory is missing, and only then [writeFileSync]; what
    either call throws reaches the caller. *)
Lemma savePathRulesConfig_unfold root config w :
  savePathRulesConfig root config w =
  let p := getPathRulesPath root in
  let dir := path_dirname p in
  let content := JSON_stringify (configToJson config) in
  if fs_existsSync (files w) dir
  then lift_write (fs_writeFileSync (files w) p content) w
  else
    match fs_mkdirSync (files w) dir with
    | (files1, Some e) => (Throw e, {| files := files1; console := console w |})
    | (files1, None) =>
        lift_write (fs_writeFileSync files1 p content)
          {| files := files1; console := console w |}
    end.
Proof.
  unfold savePathRulesConfig, bind, existsSync, mkdirSync, writeFileSync, ret.
  cbv zeta. destruct (fs_existsSync _ _); cbn [negb]; [done|].
  unfold lift_write at 1.
  by destruct (fs_mkdirSync _ _) as [files1 [e|]].
Qed.

Lemma savePathRulesConfig_write_failure root config w e files1 :
  fs_existsSync (files w) (path_dirname (getPathRulesPath root)) = true ->
  fs_writeFileSync (files w) (getPathRulesPath root)
    (JSON_stringify (configToJson config)) = (files1, Some e) ->
  fst (savePathRulesConfig root config w) = Throw e.
Proof.
  intros Hex Hw. rewrite savePathRulesConfig_unfold. cbv zeta.
  rewrite Hex, Hw. done.
Qed.

Lemma savePathRulesConfig_mkdir_failure root config w e files1 :
  fs_existsSync (files w) (path_dirname (getPathRulesPath root)) = false ->
  fs_mkdirSync (files w) (path_dirname (getPathRulesPath root))
    = (files1, Some e) ->
  savePathRulesConfig root config w
  = (Throw e, {| files := files1; console := console w |}).
Proof.
  intros Hex Hm. rewrite savePathRulesConfig_unfold. cbv zeta.
  by rewrite Hex, Hm.
Qed.

End SaveFacts.

(** X2.  [savePathRulesConfig] lets every failure of [mkdirSync] and of
    [writeFileSync] reach the caller, writes only after the directory test
    and a successful [mkdirSync], and returns when the write succeeded. *)
Theorem savePathRulesConfig_propagates `{host : StoreHost}
    (root : string) (config : PathRulesConfig Json.value)
    (w : Storage.World) :
  let p := Storage.getPathRulesPath root in
  let dir := path_dirname p in
  let content := JSON_stringify (Storage.configToJson config) in
  let r := Storage.savePathRulesConfig root config w in
  (forall files1 e,
      fs_existsSync (Storage.files w) dir = false ->
      fs_mkdirSync (Storage.files w) dir = (files1, Some e) ->
      fst r = Storage.Throw e /\ Storage.files (snd r) = files1)
  /\ (forall files1 files2 e,
        fs_existsSync (Storage.files w) dir = false ->
        fs_mkdirSync (Storage.files w) dir = (files1, None) ->
        fs_writeFileSync files1 p content = (files2, e) ->
        fst r = match e with
                | Some e => Storage.Throw e
                | None => Storage.Return tt
                end
        /\ Storage.files (snd r) = files2)
  /\ (forall files2 e,
        fs_existsSync (Storage.files w) dir = true ->
        fs_writeFileSync (Storage.files w) p content = (files2, e) ->
        fst r = match e with
                | Some e => Storage.Throw e
                | None => Storage.Return tt
                end
        /\ Storage.files (snd r) = files2).
Proof.
  intros p dir content r. subst r p dir content.
  rewrite savePathRulesConfig_unfold. cbv zeta.
  repeat split; intros;
    repeat match goal with H : _ = _ |- _ => rewrite H end;
    unfold Storage.lift_write; cbn [fst snd];
    try match goal with |- context [match ?e with Some _ => _ | None => _ end] =>
      destruct e end; done.
Qed.

(** Saving on a read-only volume throws; saving into a workspace without a
    labels directory creates the directory and then the document. *)
Example save_read_only_throws :
  fst (Storage.savePathRulesConfig (host := exampleHost) "/ws"
         Storage.createDefaultConfig
         (@Storage.Build_World exampleHost
            {| MemHost.contents := ∅; MemHost.directories := {[ "/ws" ]};
               MemHost.readOnly := true |} []))
  = Storage.Throw ("EROFS"%string : @exn exampleHost).
Proof. vm_compute. reflexivity. Qed.

Example save_creates_directory :
  let r := Storage.savePathRulesConfig (host := exampleHost) "/ws"
             Storage.createDefaultConfig
             (@Storage.Build_World exampleHost
                {| MemHost.contents := ∅; MemHost.directories := {[ "/ws" ]};
                   MemHost.readOnly := false |} []) in
  fst r = Storage.Return tt
  /\ MemHost.existsSync (Storage.files (snd r)) "/ws/labels" = true
  /\ MemHost.contents (Storage.files (snd r)) !! "/ws/labels/path-rules.json"
     = Some "doc"%string.
Proof. vm_compute. repeat split. Qed.

(** C9, as stated, fails: the store overwrites the document with one
    [writeFileSync] and uses no temporary file.  On a volume that has run
    full, saving over an existing document throws [ENOSPC] and leaves the
    document empty, which is neither the text before the call nor the new
    one; the rules that loaded before the call are gone on the next load. *)
Lemma save_leaves_partial_document :
  let r := Storage.savePathRulesConfig (host := fullDiskHost) "/ws"
             savedConfig fullDiskWorld in
  let p := Storage.getPathRulesPath (host := fullDiskHost) "/ws" in
  fst r = Storage.Throw ("ENOSPC"%string : @exn fullDiskHost)
  /\ fs_readFileSync (StoreHost := fullDiskHost)
       (Storage.files fullDiskWorld) p = inr "doc"%string
  /\ fs_readFileSync (StoreHost := fullDiskHost) (Storage.files (snd r)) p
     = inr ""%string
  /\ JSON_stringify (StoreHost := fullDiskHost)
       (Storage.configToJson savedConfig) = "cfg"%string
  /\ ~ savedAtomically (host := fullDiskHost) "/ws" savedConfig fullDiskWorld
  /\ fst (Storage.loadPathRulesConfig (host := fullDiskHost) "/ws"
            fullDiskWorld)
     = Storage.Return {| version := 1; rules := [validRule1; validRule2] |}
  /\ fst (Storage.loadPathRulesConfig (host := fullDiskHost) "/ws" (snd r))
     = Storage.Return Storage.createDefaultConfig.
Proof.
  repeat split; try (vm_compute; reflexivity).
  unfold savedAtomically. vm_compute. discriminate.
Qed.

(** C9, amended.  [savePathRulesConfig] tests for the labels directory and
    creates it when it is missing, before it writes; a failure of [mkdirSync]
    reaches the caller without a write, and so does a failure of
    [writeFileSync]; the console is left alone.  The document is overwritten
    by that single [writeFileSync]: with the directory present the file
    system after the call is the one this write leaves, and the save is atomic
    to the caller exactly when this write is, that is when it either succeeds
    with the new text readable or fails with the document readable as
    before. *)
Theorem savePathRulesConfig_single_write `{host : StoreHost}
    (root : string) (config : PathRulesConfig Json.value)
    (w : Storage.World) :
  let p := Storage.getPathRulesPath root in
  let dir := path_dirname p in
  let content := JSON_stringify (Storage.configToJson config) in
  let r := Storage.savePathRulesConfig root config w in
  let outcomeOf (written : fs * option exn) :=
    match snd written with
    | Some e => Storage.Throw e
    | None => Storage.Return tt
    end in
  (fs_existsSync (Storage.files w) dir = true ->
   fst r = outcomeOf (fs_writeFileSync (Storage.files w) p content)
   /\ Storage.files (snd r)
      = fst (fs_writeFileSync (Storage.files w) p content))
  /\ (forall files1 e,
        fs_existsSync (Storage.files w) dir = false ->
        fs_mkdirSync (Storage.files w) dir = (files1, Some e) ->
        fst r = Storage.Throw e /\ Storage.files (snd r) = files1)
  /\ (forall files1,
        fs_existsSync (Storage.files w) dir = false ->
        fs_mkdirSync (Storage.files w) dir = (files1, None) ->
        fst r = outcomeOf (fs_writeFileSync files1 p content)
        /\ Storage.files (snd r) = fst (fs_writeFileSync files1 p content))
  /\ Storage.console (snd r) = Storage.console w
  /\ (fs_existsSync (Storage.files w) dir = true ->
      (savedAtomically root config w <->
       match fs_writeFileSync (Storage.files w) p content with
       | (files2, None) => fs_readFileSync files2 p = inr content
       | (files2, Some _) =>
           fs_readFileSync files2 p = fs_readFileSync (Storage.files w) p
       end)).
Proof.
  intros p dir content r outcomeOf. unfold savedAtomically. cbv zeta.
  subst r outcomeOf p dir content.
  rewrite savePathRulesConfig_unfold. cbv zeta.
  destruct (fs_existsSync _ _) eqn:Hex.
  - unfold Storage.lift_write.
    destruct (fs_writeFileSync _ _ _) as [files2 [e|]];
      cbn [fst snd Storage.files Storage.console]; repeat split; done.
  - destruct (fs_mkdirSync _ _) as [files1 [e|]] eqn:Hmk.
    + cbn [fst snd Storage.files Storage.console].
      split; [by intros [=]|]. split; [by intros ? ? _ [= <- <-]|].
      split; [by intros ? _ [=]|]. by split; [|intros [=]].
    + unfold Storage.lift_write.
      destruct (fs_writeFileSync files1 _ _) as [files2 [e|]] eqn:Hwr;
        cbn [fst snd Storage.files Storage.console].
      * split; [by intros [=]|]. split; [by intros ? ? _ [=]|].
        split; [|by split; [|intros [=]]].
        intros ? _ [= <-]. by rewrite Hwr.
      * split; [by intros [=]|]. split; [by intros ? ? _ [=]|].
        split; [|by split; [|intros [=]]].
        intros ? _ [= <-]. by rewrite Hwr.
Qed.

Lemma savePathRulesConfig_single_write_witness :
  savedAtomically (host := exampleHost) "/ws" Storage.createDefaultConfig
    readOnlyWorld
  /\ savedAtomically (host := exampleHost) "/ws" Storage.createDefaultConfig
       exampleWorld.
Proof.
  split.
  - apply (savePathRulesConfig_single_write (host := exampleHost) "/ws"
             Storage.createDefaultConfig readOnlyWorld); reflexivity.
  - apply (savePathRulesConfig_single_write (host := exampleHost) "/ws"
             Storage.createDefaultConfig exampleWorld); reflexivity.
Defined.

(** * Further properties *)

(** ** The label tree *)

Section LabelInduction.
Variable P : LabelConfig -> Prop.
Hypothesis step : forall i cs,
  match cs with
  | Some children => Forall P children
  | None => True
  end -> P (Label i cs).

Fixpoint LabelConfig_forall_ind (label : LabelConfig) : P label :=
  match label with
  | Label i cs =>
      step i cs
        match cs as o return match o with
                             | Some children => Forall P children
                             | None => True
                             end with
        | Some children =>
            (fix go (ls : list LabelConfig) : Forall P ls :=
               match ls with
               | [] => @List.Forall_nil _ P
               | l :: ls' =>
                   @List.Forall_cons _ P l ls' (LabelConfig_forall_ind l) (go ls')
               end) children
        | None => I
        end
  end.
End LabelInduction.

Lemma findLabelIn_unfold labelId i cs :
  findLabelIn labelId (Label i cs) =
  if String.eqb i labelId then Some (Label i cs)
  else match cs with
       | Some children => findLabelById children labelId
       | None => None
       end.
Proof.
  cbn [findLabelIn label_id label_children].
  destruct (String.eqb i labelId); [done|].
  destruct cs as [children|]; [|done].
  induction children as [|c children IH]; [done|].
  cbn [findLabelById]. by rewrite IH.
Qed.

Lemma flattenLabel_unfold i cs :
  flattenLabel (Label i cs) =
  Label i cs :: match cs with
                | Some children => flattenLabels children
                | None => []
                end.
Proof. by destruct cs. Qed.

Lemma find_app_first {A} (f : A -> bool) (l1 l2 : list A) :
  List.find f (l1 ++ l2)
  = match List.find f l1 with
    | Some x => Some x
    | None => List.find f l2
    end.
Proof.
  induction l1 as [|x l1 IH]; [done|].
  cbn [app List.find]. by destruct (f x).
Qed.

Lemma findLabelIn_find labelId label :
  findLabelIn labelId label
  = List.find (fun l => String.eqb (label_id l) labelId) (flattenLabel label).
Proof.
  induction label as [i cs IH] using LabelConfig_forall_ind.
  rewrite findLabelIn_unfold, flattenLabel_unfold. cbn [List.find label_id].
  destruct (String.eqb i labelId); [done|].
  destruct cs as [children|]; [|done].
  induction IH as [|c children Hc _ IHl]; [done|].
  cbn [findLabelById flattenLabels]. rewrite find_app_first, <- Hc.
  by destruct (findLabelIn labelId c).
Qed.

Lemma findLabelById_find labels labelId :
  findLabelById labels labelId
  = List.find (fun l => String.eqb (label_id l) labelId) (flattenLabels labels).
Proof.
  induction labels as [|label rest IH]; [done|].
  cbn [findLabelById flattenLabels].
  rewrite find_app_first, <- findLabelIn_find, IH.
  by destruct (findLabelIn labelId label).
Qed.

(** X3.  [findLabelById] returns the first node of the tree, in depth-first
    order, whose id is the one asked for: a node it returns has that id and
    belongs to the tree, and it returns nothing exactly when no node of the
    tree has that id. *)
Theorem findLabelById_first_in_depth_first_order
    (labels : list LabelConfig) (labelId : string) :
  findLabelById labels labelId
  = List.find (fun l => String.eqb (label_id l) labelId) (flattenLabels labels)
  /\ (forall found, findLabelById labels labelId = Some found ->
        label_id found = labelId /\ found ∈ flattenLabels labels)
  /\ (findLabelById labels labelId = None <->
      forall l, l ∈ flattenLabels labels -> label_id l <> labelId).
Proof.
  split; [apply findLabelById_find|]. rewrite findLabelById_find. split.
  - intros found [Hin Heq]%find_some.
    split; [by apply String.eqb_eq|by apply list_elem_of_In].
  - split.
    + intros Hnone l Hl Hid. apply list_elem_of_In in Hl.
      pose proof (find_none _ _ Hnone l Hl) as Hf. cbv beta in Hf.
      apply String.eqb_neq in Hf. done.
    + intros Hall.
      destruct (List.find _ _) as [found|] eqn:Hfind; [|done].
      apply find_some in Hfind as [Hin Heq].
      apply String.eqb_eq in Heq. apply list_elem_of_In in Hin.
      by destruct (Hall found Hin).
Qed.

(** ** More on the evaluator *)

Section EvaluateMore.
Context {host : Host}.

Lemma ruleApplies_true wd labels r :
  ruleApplies wd labels r = true <->
  matchesPath (PathRule.path r) wd (PathRule.match_ r) = true
  /\ forall ls, labels = Some ls ->
       is_Some (findLabelById ls (PathRule.labelId r)).
Proof.
  unfold ruleApplies. rewrite andb_true_iff. split.
  - intros [Hm Hl]. split; [done|]. intros ls ->.
    by destruct (findLabelById ls _).
  - intros [Hm Hl]. split; [done|]. destruct labels as [ls|]; [|done].
    by destruct (Hl ls eq_refl) as [found ->].
Qed.

Lemma evaluateLoop_step wd labels r rest seen :
  evaluateLoop wd labels (r :: rest) seen =
  if ruleApplies wd labels r then
    if bool_decide (buildLabelEntry r ∈ seen)
    then evaluateLoop wd labels rest seen
    else {| rule := r; labelEntry := buildLabelEntry r |}
         :: evaluateLoop wd labels rest ({[buildLabelEntry r]} ∪ seen)
  else evaluateLoop wd labels rest seen.
Proof.
  cbn [evaluateLoop]. unfold ruleApplies.
  destruct (matchesPath _ _ _); cbn [negb andb]; [|done].
  destruct labels as [ls|]; [|done].
  by destruct (findLabelById ls _).
Qed.

Lemma evaluateLoop_filter wd labels rs seen :
  evaluateLoop wd labels
    (filter (fun r => ruleApplies wd labels r = true) rs) seen
  = evaluateLoop wd labels rs seen.
Proof.
  revert seen. induction rs as [|r rs IH]; intros seen; [done|].
  rewrite filter_cons, (evaluateLoop_step _ _ r rs).
  destruct (decide (ruleApplies wd labels r = true)) as [Hr|Hr].
  - rewrite evaluateLoop_step, Hr, !IH. done.
  - apply not_true_is_false in Hr. by rewrite Hr, IH.
Qed.

Lemma evaluateLoop_sound wd labels rs seen :
  Forall (fun m =>
            rule m ∈ rs /\ ruleApplies wd labels (rule m) = true
            /\ labelEntry m = buildLabelEntry (rule m)
            /\ labelEntry m ∉ seen)
    (evaluateLoop wd labels rs seen).
Proof.
  revert seen. induction rs as [|r rs IH]; intros seen; [constructor|].
  rewrite evaluateLoop_step.
  assert (Hweak : forall seen',
    seen ⊆ seen' ->
    Forall (fun m => rule m ∈ r :: rs /\ ruleApplies wd labels (rule m) = true
                     /\ labelEntry m = buildLabelEntry (rule m)
                     /\ labelEntry m ∉ seen)
      (evaluateLoop wd labels rs seen')).
  { intros seen' Hsub. eapply Forall_impl; [apply IH|].
    intros m (Hin & Ha & He & Hs). repeat split; try done; [by right|].
    set_solver. }
  destruct (ruleApplies wd labels r) eqn:Hr; [|by apply Hweak].
  case_bool_decide as Hseen; [by apply Hweak|].
  constructor.
  - cbn [rule labelEntry]. repeat split; try done. by left.
  - apply Hweak. set_solver.
Qed.

Lemma evaluateLoop_fresh wd labels rs seen :
  Forall (fun m => labelEntry m ∉ seen) (evaluateLoop wd labels rs seen).
Proof.
  eapply Forall_impl; [apply evaluateLoop_sound|]. by intros m (_ & _ & _ & ?).
Qed.

Lemma evaluateLoop_NoDup wd labels rs seen :
  NoDup (labelEntry <$> evaluateLoop wd labels rs seen).
Proof.
  revert seen. induction rs as [|r rs IH]; intros seen; [constructor|].
  rewrite evaluateLoop_step.
  destruct (ruleApplies wd labels r); [|apply IH].
  case_bool_decide; [apply IH|].
  rewrite fmap_cons. cbn [labelEntry]. constructor; [|apply IH].
  intros (m & Hm & Hin)%list_elem_of_fmap.
  pose proof (evaluateLoop_fresh wd labels rs ({[buildLabelEntry r]} ∪ seen))
    as Hfresh.
  rewrite Forall_forall in Hfresh. apply (Hfresh m Hin). set_solver.
Qed.

(** Every applicable rule is answered: its entry was seen before the loop
    or is carried by a match whose rule comes no later in the list. *)
Lemma evaluateLoop_complete wd labels rs seen r :
  StronglySorted
    (fun a b => JsString.length (PathRule.path b)
                <= JsString.length (PathRule.path a)) rs ->
  r ∈ rs -> ruleApplies wd labels r = true ->
  buildLabelEntry r ∈ seen
  \/ exists m, m ∈ evaluateLoop wd labels rs seen
       /\ labelEntry m = buildLabelEntry r
       /\ JsString.length (PathRule.path r)
          <= JsString.length (PathRule.path (rule m)).
Proof.
  intros Hsorted. revert seen.
  induction Hsorted as [|r0 rs Hs IH Hr0]; intros seen Hin Happ;
    [by apply elem_of_nil in Hin|].
  rewrite evaluateLoop_step.
  apply elem_of_cons in Hin as [-> | Hin].
  - rewrite Happ. case_bool_decide as Hseen; [by left|].
    right. eexists. split; [by left|]. cbn [labelEntry rule]. split; [done|lia].
  - destruct (ruleApplies wd labels r0) eqn:Hr0app; [|by apply IH].
    case_bool_decide as Hseen; [by apply IH|].
    destruct (IH ({[buildLabelEntry r0]} ∪ seen) Hin Happ)
      as [Hs'|(m & Hm & He & Hlen)].
    + apply elem_of_union in Hs' as [Heq%elem_of_singleton|Hs']; [|by left].
      right. eexists. split; [by left|]. cbn [labelEntry rule].
      split; [done|]. rewrite Forall_forall in Hr0. by apply Hr0.
    + right. exists m. split; [by right|done].
Qed.

End EvaluateMore.

(** ** First wins, over the sorted list *)

Section EvaluateFirstWins.
Context {host : Host}.

Lemma evaluateLoop_first_wins wd labels rs seen :
  Forall (fun r => ruleApplies wd labels r = true) rs ->
  evaluateLoop wd labels rs seen
  = concat
      (imap (fun i r =>
               if bool_decide
                    (buildLabelEntry r ∈ seen
                     \/ buildLabelEntry r ∈ (buildLabelEntry <$> take i rs))
               then []
               else [ {| rule := r; labelEntry := buildLabelEntry r |} ])
         rs).
Proof.
  intros Hall. revert seen.
  induction Hall as [|r rs Hr Hall IH]; intros seen; [done|].
  rewrite evaluateLoop_step, Hr, imap_cons. cbn [concat take fmap list_fmap].
  assert (Hrest : forall seen',
    (forall e, e ∈ seen' <-> e ∈ seen \/ e = buildLabelEntry r) ->
    evaluateLoop wd labels rs seen'
    = concat (imap ((fun i r0 =>
               if bool_decide
                    (buildLabelEntry r0 ∈ seen
                     \/ buildLabelEntry r0 ∈ (buildLabelEntry <$> take i (r :: rs)))
               then []
               else [ {| rule := r0; labelEntry := buildLabelEntry r0 |} ]) ∘ S) rs)).
  { intros seen' Hseen'. rewrite IH. f_equal. apply imap_ext.
    intros i r0 _. cbn [compose take]. rewrite fmap_cons.
    erewrite bool_decide_ext; [done|].
    rewrite Hseen', elem_of_cons. tauto. }
  case_bool_decide as H0.
  - rewrite bool_decide_true by (by left). cbn [app].
    apply Hrest. intros e. split; [by left|]. by intros [?| ->].
  - rewrite bool_decide_false.
    2:{ intros [?|?%elem_of_nil]; done. }
    cbn [app]. f_equal. apply Hrest. intros e.
    rewrite elem_of_union, elem_of_singleton. tauto.
Qed.

Lemma evaluatePathRules_firstWins d config labels :
  d <> ""%string ->
  evaluatePathRules (Some d) config labels
  = firstWins (filter (fun r => ruleApplies d labels r = true)
                 (sortedRules config)).
Proof.
  intros Hd. unfold evaluatePathRules.
  rewrite (proj2 (String.eqb_neq _ _) Hd).
  rewrite <- evaluateLoop_filter, evaluateLoop_first_wins.
  - unfold firstWins. f_equal. apply imap_ext. intros i r _.
    erewrite bool_decide_ext; [done|].
    split; [|by right]. by intros [?%elem_of_empty|?].
  - apply Forall_forall. by intros r [? _]%list_elem_of_filter.
Qed.

End EvaluateFirstWins.

(** C6.  The rules are visited longest path first, the sort keeps rules of
    equal path length in the order of the rule set, and so does the result of
    [evaluatePathRules].  The ordering comes before the matching: the result
    is the first-wins selection over the sorted list of the rules that pass
    the two tests, so that among rules building one label entry the first
    of the sorted list gives the match, and every rule that passes the tests
    has its entry carried by a rule whose path is at least as long.  Prefix
    rules for /a (X) and /a/b (Y) evaluated at /a/b/c give Y before X; with a
    third rule for /a/b/c that proposes X again, the match for X is the one of
    /a/b/c and comes before Y. *)
Theorem evaluate_longest_first_stable `{host : Host}
    (wd : option string) (config : PathRulesConfig PathRule.t)
    (labels : option (list LabelConfig)) :
  let len r := JsString.length (PathRule.path r) in
  let out := rule <$> evaluatePathRules wd config labels in
  StronglySorted (fun a b => len b <= len a) (sortedRules config)
  /\ sortedRules config ≡ₚ enabledRules config
  /\ (forall n, filter (fun r => len r = n) (sortedRules config)
                = filter (fun r => len r = n) (enabledRules config))
  /\ out `sublist_of` sortedRules config
  /\ StronglySorted (fun a b => len b <= len a) out
  /\ (forall n, filter (fun r => len r = n) out
                `sublist_of` filter (fun r => len r = n) (rules config))
  /\ (forall cwd,
        evaluatePathRules (host := Posix.host cwd) (Some "/a/b/c")
          {| version := 1; rules := [ruleA; ruleAB] |} None
        = [ {| rule := ruleAB; labelEntry := "Y" |};
            {| rule := ruleA; labelEntry := "X" |} ])
  /\ (forall d, wd = Some d -> d <> ""%string ->
        evaluatePathRules wd config labels
        = firstWins (filter (fun r => ruleApplies d labels r = true)
                       (sortedRules config)))
  /\ (forall d r, wd = Some d -> d <> ""%string ->
        r ∈ enabledRules config -> ruleApplies d labels r = true ->
        exists m, m ∈ evaluatePathRules wd config labels
          /\ labelEntry m = buildLabelEntry r
          /\ len r <= len (rule m))
  /\ (forall cwd,
        evaluatePathRules (host := Posix.host cwd) (Some "/a/b/c")
          {| version := 1; rules := [ruleA; ruleAB; ruleABC] |} None
        = [ {| rule := ruleABC; labelEntry := "X" |};
            {| rule := ruleAB; labelEntry := "Y" |} ]).
Proof.
  intros len out.
  assert (Hsorted : StronglySorted (fun a b => len b <= len a)
                      (sortedRules config)) by apply (sort_sorted len).
  assert (Hstable : forall n, filter (fun r => len r = n) (sortedRules config)
                = filter (fun r => len r = n) (enabledRules config))
    by (intros n; apply (sort_filter_key len)).
  assert (Hsub : out `sublist_of` sortedRules config)
    by apply evaluatePathRules_sublist.
  split; [done|]. split; [apply (sort_perm len)|]. split; [done|].
  split; [done|]. split; [by eapply StronglySorted_sublist|].
  split.
  { intros n. etrans; [by apply sublist_filter_mono|].
    rewrite Hstable. apply sublist_filter_mono. apply sublist_filter. }
  split; [done|]. split.
  { intros d -> Hd. by apply evaluatePathRules_firstWins. }
  split; [|done].
  intros d r -> Hd Hin Happ. unfold evaluatePathRules.
  rewrite (proj2 (String.eqb_neq _ _) Hd).
  destruct (evaluateLoop_complete d labels (sortedRules config) ∅ r)
    as [Hs|Hex]; [done| |done|by apply elem_of_empty in Hs|done].
  unfold sortedRules.
  by rewrite (sort_perm (fun r => JsString.length (PathRule.path r))).
Qed.

Section SortFilter.
Context {A : Type} (key : A -> Z) (P : A -> Prop) `{!forall x, Decision (P x)}.

Lemma insertSorted_head x l :
  Forall (fun y => key y <= key x) l ->
  insertSorted (descendingBy key) x l = x :: l.
Proof.
  destruct l as [|y l]; [done|]. intros [Hy _]%Forall_cons.
  cbn [insertSorted]. unfold descendingBy.
  by destruct (Z.leb_spec (key y - key x) 0); [|lia].
Qed.

Lemma insertSorted_filter x l :
  StronglySorted (fun a b => key b <= key a) l ->
  filter P (insertSorted (descendingBy key) x l)
  = if decide (P x) then insertSorted (descendingBy key) x (filter P l)
    else filter P l.
Proof.
  induction 1 as [|y l Hl IH Hy].
  { cbn [insertSorted]. rewrite filter_cons, !filter_nil.
    by destruct (decide (P x)). }
  cbn [insertSorted]. unfold descendingBy at 1.
  destruct (Z.leb_spec (key y - key x) 0) as [Hle|Hgt].
  - rewrite filter_cons. destruct (decide (P x)); [|done].
    rewrite insertSorted_head; [done|].
    apply Forall_forall. intros z Hz%list_elem_of_filter.
    destruct Hz as [_ Hz]. apply elem_of_cons in Hz as [-> | Hz]; [lia|].
    rewrite Forall_forall in Hy. specialize (Hy z Hz). simpl in Hy. lia.
  - rewrite filter_cons, IH, (filter_cons _ y).
    destruct (decide (P y)), (decide (P x)); try done.
    cbn [insertSorted].
    change (descendingBy key x y) with (key y - key x).
    by destruct (Z.leb_spec (key y - key x) 0); [lia|].
Qed.

Lemma sort_filter l :
  filter P (sort (descendingBy key) l) = sort (descendingBy key) (filter P l).
Proof.
  induction l as [|x l IH]; [done|].
  change (sort (descendingBy key) (x :: l))
    with (insertSorted (descendingBy key) x (sort (descendingBy key) l)).
  rewrite insertSorted_filter by apply sort_sorted.
  rewrite filter_cons, IH. by destruct (decide (P x)).
Qed.

End SortFilter.

Lemma evaluatePathRules_Forall `{host : Host} workingDirectory config labels :
  Forall (fun m =>
            rule m ∈ rules config
            /\ PathRule.enabled (rule m) <> Some false
            /\ labelEntry m = buildLabelEntry (rule m)
            /\ (exists d, workingDirectory = Some d /\ d <> ""%string
                  /\ matchesPath (PathRule.path (rule m)) d
                       (PathRule.match_ (rule m)) = true)
            /\ (forall ls, labels = Some ls ->
                  is_Some (findLabelById ls (PathRule.labelId (rule m)))))
    (evaluatePathRules workingDirectory config labels).
Proof.
  unfold evaluatePathRules. destruct workingDirectory as [d|]; [|constructor].
  destruct (String.eqb_spec d ""); [constructor|].
  eapply Forall_impl; [apply evaluateLoop_sound|].
  intros m (Hin & Happ & He & _). apply ruleApplies_true in Happ as [Hm Hl].
  unfold sortedRules in Hin.
  rewrite (sort_perm (fun r => JsString.length (PathRule.path r))) in Hin.
  apply list_elem_of_filter in Hin as [Hen Hin].
  repeat split; try done. by exists d.
Qed.

(** X4.  Every match that [evaluatePathRules] returns stands for a rule of
    the configuration that is not disabled, whose path matches the (non-empty)
    working directory in the rule's mode, whose label is found in the tree
    when a tree is given, and whose label entry is the one built from the
    rule. *)
Theorem evaluatePathRules_sound `{host : Host}
    (workingDirectory : option string) (config : PathRulesConfig PathRule.t)
    (labels : option (list LabelConfig)) :
  Forall (fun m =>
            rule m ∈ rules config
            /\ PathRule.enabled (rule m) <> Some false
            /\ labelEntry m = buildLabelEntry (rule m)
            /\ (exists d, workingDirectory = Some d /\ d <> ""%string
                  /\ matchesPath (PathRule.path (rule m)) d
                       (PathRule.match_ (rule m)) = true)
            /\ (forall ls, labels = Some ls ->
                  is_Some (findLabelById ls (PathRule.labelId (rule m)))))
    (evaluatePathRules workingDirectory config labels).
Proof. apply evaluatePathRules_Forall. Qed.

Lemma evaluatePathRules_NoDup `{host : Host} workingDirectory config labels :
  NoDup (labelEntry <$> evaluatePathRules workingDirectory config labels).
Proof.
  unfold evaluatePathRules. destruct workingDirectory as [d|]; [|constructor].
  destruct (String.eqb d ""); [constructor|]. apply evaluateLoop_NoDup.
Qed.

(** X5.  The label entries of one evaluation are pairwise different. *)
Theorem evaluatePathRules_entries_NoDup `{host : Host}
    (workingDirectory : option string) (config : PathRulesConfig PathRule.t)
    (labels : option (list LabelConfig)) :
  NoDup (labelEntry <$> evaluatePathRules workingDirectory config labels).
Proof. apply evaluatePathRules_NoDup. Qed.

(** X6.  A rule of the configuration that is not disabled and passes the two
    tests for a non-empty working directory has its label entry in the
    result, carried by a match whose rule has a path at least as long. *)
Theorem evaluatePathRules_complete `{host : Host}
    (d : string) (config : PathRulesConfig PathRule.t)
    (labels : option (list LabelConfig)) (r : PathRule.t) :
  d <> ""%string ->
  r ∈ rules config ->
  PathRule.enabled r <> Some false ->
  matchesPath (PathRule.path r) d (PathRule.match_ r) = true ->
  (forall ls, labels = Some ls ->
     is_Some (findLabelById ls (PathRule.labelId r))) ->
  exists m, m ∈ evaluatePathRules (Some d) config labels
    /\ labelEntry m = buildLabelEntry r
    /\ JsString.length (PathRule.path r)
       <= JsString.length (PathRule.path (rule m)).
Proof.
  intros Hd Hin Hen Hm Hl. unfold evaluatePathRules.
  destruct (String.eqb_spec d ""); [done|].
  destruct (evaluateLoop_complete d labels (sortedRules config) ∅ r)
    as [Hs|Hex]; [| | |by apply elem_of_empty in Hs|done].
  - apply (sort_sorted (fun r => JsString.length (PathRule.path r))).
  - unfold sortedRules.
    rewrite (sort_perm (fun r => JsString.length (PathRule.path r))).
    by apply list_elem_of_filter.
  - by apply ruleApplies_true.
Qed.

Lemma evaluatePathRules_complete_witness :
  exists m,
    m ∈ evaluatePathRules (host := Posix.host "/") (Some "/a/b/c")
          {| version := 1; rules := [ruleA; ruleAB] |} None
    /\ labelEntry m = buildLabelEntry ruleA
    /\ JsString.length (PathRule.path ruleA)
       <= JsString.length (PathRule.path (rule m)).
Proof.
  apply (evaluatePathRules_complete (host := Posix.host "/") "/a/b/c"
           {| version := 1; rules := [ruleA; ruleAB] |} None ruleA).
  - discriminate.
  - by left.
  - discriminate.
  - reflexivity.
  - discriminate.
Defined.

(** X7.  Rules that are disabled, do not match the working directory or
    name a label missing from the given tree have no influence: evaluating
    the configuration without them gives the same matches. *)
Theorem evaluatePathRules_effective_rules `{host : Host}
    (d : string) (config : PathRulesConfig PathRule.t)
    (labels : option (list LabelConfig)) :
  evaluatePathRules (Some d) (effectiveRules d labels config) labels
  = evaluatePathRules (Some d) config labels.
Proof.
  unfold evaluatePathRules. destruct (String.eqb d ""); [done|].
  unfold sortedRules, enabledRules, effectiveRules. cbn [rules].
  rewrite <- (evaluateLoop_filter d labels (sort _ (filter _ (rules config)))).
  unfold byPathLengthDesc.
  rewrite (sort_filter (fun r => JsString.length (PathRule.path r))).
  rewrite !list_filter_filter. f_equal. f_equal.
  apply list_filter_iff. intros r. tauto.
Qed.

(** ** More on the merger *)

Lemma newLabels_empty ms : newLabels ∅ ms = labelEntry <$> ms.
Proof.
  induction ms as [|m ms IH]; [done|].
  cbn [newLabels]. rewrite bool_decide_eq_false_2 by apply not_elem_of_empty.
  replace (hasExistingValue ∅ _) with false; [by rewrite IH|].
  symmetry. apply hasExistingValue_false. intros l Hl.
  by apply elem_of_empty in Hl.
Qed.

(** X8.  On a session without labels (undefined or empty) every proposed
    entry is added, in match order, whatever bare ids the entries share; with
    no match at all the labels come back as they were. *)
Theorem applyPathRuleMatches_no_labels (matches : list PathRuleMatch) :
  applyPathRuleMatches None matches
    = match matches with
      | [] => None
      | _ => Some (labelEntry <$> matches)
      end
  /\ applyPathRuleMatches (Some []) matches = Some (labelEntry <$> matches).
Proof.
  split.
  - unfold applyPathRuleMatches. destruct matches as [|m ms]; [done|].
    cbv zeta. change (list_to_set (default [] None)) with (∅ : gset string).
    rewrite newLabels_empty. by rewrite fmap_cons.
  - rewrite applyPathRuleMatches_Some.
    change (list_to_set []) with (∅ : gset string).
    by rewrite newLabels_empty.
Qed.

(** X9.  What the result of [applyPathRuleMatches] holds: an entry is in it
    exactly when it was among the current labels, or it is the entry of some
    match and no current label is its bare id or a value of its bare id. *)
Theorem applyPathRuleMatches_members (currentLabels : option (list string))
    (matches : list PathRuleMatch) (e : string) :
  e ∈ default [] (applyPathRuleMatches currentLabels matches) <->
  e ∈ default [] currentLabels
  \/ ((exists m, m ∈ matches /\ labelEntry m = e)
      /\ forall l, l ∈ default [] currentLabels ->
           sharesBareId (JsString.splitHead "::" e) l = false).
Proof.
  rewrite applyPathRuleMatches_default, elem_of_app, elem_of_newLabels.
  rewrite hasExistingValue_false. split.
  - intros [Hcur|(Hm & Hnin & Hno)]; [by left|right].
    split; [done|]. intros l Hl. apply Hno. by apply elem_of_list_to_set.
  - intros [Hcur|(Hm & Hno)]; [by left|right].
    split; [done|]. split.
    + rewrite elem_of_list_to_set. intros Hin.
      specialize (Hno e Hin). by rewrite sharesBareId_self in Hno.
    + intros l Hl. apply Hno. by apply elem_of_list_to_set in Hl.
Qed.

(** X10.  Applying the result of an evaluation to labels without duplicates
    gives labels without duplicates. *)
Theorem evaluate_apply_NoDup `{host : Host}
    (workingDirectory : option string) (config : PathRulesConfig PathRule.t)
    (labels : option (list LabelConfig)) (currentLabels : option (list string)) :
  NoDup (default [] currentLabels) ->
  NoDup (default []
           (applyPathRuleMatches currentLabels
              (evaluatePathRules workingDirectory config labels))).
Proof.
  intros Hcur. rewrite applyPathRuleMatches_default. apply NoDup_app.
  split; [done|]. split.
  - intros e He (_ & Hnin & _)%elem_of_newLabels.
    apply Hnin. by apply elem_of_list_to_set.
  - eapply sublist_NoDup; [|apply newLabels_sublist].
    apply evaluatePathRules_NoDup.
Qed.

Lemma evaluate_apply_NoDup_witness :
  NoDup (default []
           (applyPathRuleMatches (Some ["bug"; "priority::2"])
              (evaluatePathRules (host := Posix.host "/") (Some "/a/b/c")
                 {| version := 1; rules := [ruleA; ruleAB] |} None))).
Proof.
  apply (evaluate_apply_NoDup (host := Posix.host "/") (Some "/a/b/c")
           {| version := 1; rules := [ruleA; ruleAB] |} None
           (Some ["bug"; "priority::2"])).
  cbn [default]. apply NoDup_cons. split.
  - intros Hin. apply list_elem_of_singleton in Hin. discriminate.
  - apply NoDup_singleton.
Defined.

(** X16.  End to end: a label of the session after evaluating and applying
    was there before, or it is the label entry of a rule of the configuration
    that is not disabled and matches the working directory. *)
Theorem evaluate_apply_labels_from_rules `{host : Host}
    (workingDirectory : option string) (config : PathRulesConfig PathRule.t)
    (labels : option (list LabelConfig)) (currentLabels : option (list string)) :
  Forall (fun e =>
            e ∈ default [] currentLabels
            \/ exists r d,
                 r ∈ rules config
                 /\ PathRule.enabled r <> Some false
                 /\ workingDirectory = Some d
                 /\ matchesPath (PathRule.path r) d (PathRule.match_ r) = true
                 /\ e = buildLabelEntry r)
    (default []
       (applyPathRuleMatches currentLabels
          (evaluatePathRules workingDirectory config labels))).
Proof.
  apply Forall_forall. intros e.
  rewrite applyPathRuleMatches_default, elem_of_app, elem_of_newLabels.
  intros [Hcur|((m & Hm & He) & _)]; [by left|right].
  pose proof (evaluatePathRules_Forall workingDirectory config labels) as Hs.
  rewrite Forall_forall in Hs.
  destruct (Hs m Hm) as (Hin & Hen & Hentry & (d & Hwd & _ & Hmatch) & _).
  exists (rule m), d. repeat split; try done. by rewrite <- He.
Qed.

(** ** POSIX paths by segments *)

Lemma append_assoc s t u : (s +:+ t) +:+ u = s +:+ t +:+ u.
Proof.
  induction s as [|c s IH]; [done|]. rewrite !append_cons. by rewrite IH.
Qed.

Lemma append_nil_r s : s +:+ "" = s.
Proof. induction s as [|c s IH]; [done|]. by rewrite append_cons, IH. Qed.

Lemma split_sep ch t :
  JsString.split ch (String ch t) = ""%string :: JsString.split ch t.
Proof. cbn [JsString.split]. by rewrite Ascii.eqb_refl. Qed.

Lemma split_nochar_app ch s t :
  hasChar ch s = false ->
  JsString.split ch (s +:+ String ch t) = s :: JsString.split ch t.
Proof.
  induction s as [|c s IH]; [intros _; apply split_sep|]. cbn [hasChar].
  intros [Hc Hs]%orb_false_iff. rewrite append_cons.
  cbn [JsString.split]. rewrite Hc, IH by done. done.
Qed.

Lemma split_nochar ch s : hasChar ch s = false -> JsString.split ch s = [s].
Proof.
  induction s as [|c s IH]; [done|]. cbn [hasChar].
  intros [Hc Hs]%orb_false_iff. cbn [JsString.split]. by rewrite Hc, IH.
Qed.

Lemma split_slash t :
  JsString.split "/" (String "/" t) = ""%string :: JsString.split "/" t.
Proof. apply split_sep. Qed.

Lemma split_noslash_app s t :
  hasSlash s = false ->
  JsString.split "/" (s +:+ String "/" t) = s :: JsString.split "/" t.
Proof. apply split_nochar_app. Qed.

Lemma split_noslash s : hasSlash s = false -> JsString.split "/" s = [s].
Proof. apply split_nochar. Qed.

Lemma concat_cons2 x y l :
  String.concat "/" (x :: y :: l) = x +:+ "/" +:+ String.concat "/" (y :: l).
Proof. reflexivity. Qed.

Lemma split_concat raw :
  raw <> [] -> Forall (fun s => hasSlash s = false) raw ->
  JsString.split "/" (String.concat "/" raw) = raw.
Proof.
  intros Hne Hall. induction Hall as [|s raw Hs Hall IH]; [done|].
  destruct raw as [|s2 raw]; [by apply split_noslash|].
  rewrite concat_cons2, append_cons, append_nil_l.
  rewrite split_noslash_app by done. by rewrite IH.
Qed.

Lemma concat_snoc raw s :
  raw <> [] ->
  String.concat "/" (raw ++ [s]) = String.concat "/" raw +:+ "/" +:+ s.
Proof.
  intros Hne. induction raw as [|x raw IH]; [done|].
  destruct raw as [|y raw]; [done|].
  change ((x :: y :: raw) ++ [s]) with (x :: y :: (raw ++ [s])).
  rewrite !concat_cons2, append_assoc. f_equal.
  change (y :: raw ++ [s]) with ((y :: raw) ++ [s]).
  rewrite IH by done. by rewrite append_assoc.
Qed.

Lemma validSegment_noslash s : validSegment s -> hasSlash s = false.
Proof. by intros (_ & _ & _ & ?). Qed.

Lemma normalizeStep_valid allow res s :
  validSegment s -> Posix.normalizeStep allow res s = s :: res.
Proof.
  intros (H1 & H2 & H3 & _). unfold Posix.normalizeStep.
  apply String.eqb_neq in H1, H2, H3. by rewrite H1, H2, H3.
Qed.

Lemma normalize_fold allow raw acc :
  Forall (fun s => s = ""%string \/ validSegment s) raw ->
  fold_left (Posix.normalizeStep allow) raw acc
  = rev (filter (fun s => s <> ""%string) raw) ++ acc.
Proof.
  intros Hall. revert acc.
  induction Hall as [|s raw Hs Hall IH]; intros acc; [done|].
  cbn [fold_left]. rewrite IH, filter_cons.
  destruct Hs as [-> | Hs].
  - by destruct (decide (""%string <> ""%string)).
  - rewrite normalizeStep_valid by done.
    destruct (decide (s <> ""%string)) as [_|Hn].
    + cbn [rev]. by rewrite <- app_assoc.
    + by destruct Hs as [Hs _].
Qed.

Lemma normalizeString_raw raw allow :
  raw <> [] -> Forall (fun s => s = ""%string \/ validSegment s) raw ->
  Posix.normalizeString (String.concat "/" raw) allow
  = String.concat "/" (filter (fun s => s <> ""%string) raw).
Proof.
  intros Hne Hall. unfold Posix.normalizeString.
  rewrite split_concat, normalize_fold, app_nil_r, rev_involutive; try done.
  eapply Forall_impl; [exact Hall|].
  intros s [-> | Hs]; [done|by apply validSegment_noslash].
Qed.

Lemma filter_nonempty_valid a :
  Forall validSegment a -> filter (fun s => s <> ""%string) a = a.
Proof.
  induction 1 as [|s a Hs Ha IH]; [done|].
  rewrite filter_cons, IH. destruct (decide (s <> ""%string)); [done|].
  by destruct Hs.
Qed.

Lemma resolve_absolute cwd x :
  Posix.resolve cwd (String "/" x)
  = "/" +:+ Posix.normalizeString (String "/" x +:+ "/") false.
Proof. reflexivity. Qed.

(** Resolving an absolute path drops its empty segments. *)
Lemma resolve_raw cwd raw :
  Forall (fun s => s = ""%string \/ validSegment s) raw ->
  Posix.resolve cwd ("/" +:+ String.concat "/" raw)
  = absolutePath (filter (fun s => s <> ""%string) raw).
Proof.
  intros Hall. rewrite append_cons, append_nil_l, resolve_absolute.
  unfold absolutePath. f_equal.
  destruct raw as [|r0 raw].
  - reflexivity.
  - replace (String "/" (String.concat "/" (r0 :: raw)) +:+ "/")
      with (String.concat "/" ((""%string :: r0 :: raw) ++ [""%string])).
    2:{ rewrite concat_snoc by done. rewrite concat_cons2.
        by rewrite append_nil_l, !append_cons, !append_nil_l. }
    rewrite normalizeString_raw; [|done|].
    + rewrite filter_app, filter_cons.
      destruct (decide (""%string <> ""%string)); [done|].
      rewrite (filter_cons _ ""%string), filter_nil.
      destruct (decide (""%string <> ""%string)); [done|].
      by rewrite app_nil_r.
    + apply Forall_app. split; [|by repeat constructor; left].
      constructor; [by left|done].
Qed.

Lemma list_ascii_app s t :
  list_ascii_of_string (s +:+ t)
  = list_ascii_of_string s ++ list_ascii_of_string t.
Proof.
  induction s as [|c s IH]; [done|].
  rewrite append_cons. cbn [list_ascii_of_string]. by rewrite IH.
Qed.

Lemma hasSlash_elem s :
  "/"%char ∈ list_ascii_of_string s -> hasSlash s = true.
Proof.
  unfold hasSlash.
  induction s as [|c s IH]; cbn [list_ascii_of_string hasChar].
  - by intros ?%elem_of_nil.
  - intros [<- | Hin]%elem_of_cons; [done|].
    rewrite IH by done. apply orb_true_r.
Qed.

Lemma endsWithSlash_noslash s : hasSlash s = false -> Posix.endsWithSlash s = false.
Proof.
  intros Hs. unfold Posix.endsWithSlash.
  destruct (rev (list_ascii_of_string s)) as [|c l] eqn:Hrev; [done|].
  destruct (Ascii.eqb_spec c "/") as [-> | Hne].
  - rewrite hasSlash_elem in Hs; [done|].
    apply list_elem_of_In, in_rev. rewrite Hrev. by left.
  - destruct c as [[] [] [] [] [] [] [] []]; try done.
Qed.

Lemma endsWithSlash_app s t :
  t <> ""%string -> Posix.endsWithSlash (s +:+ t) = Posix.endsWithSlash t.
Proof.
  intros Ht. unfold Posix.endsWithSlash.
  rewrite list_ascii_app, rev_app_distr.
  destruct t as [|c t]; [done|]. cbn [list_ascii_of_string rev].
  destruct (rev (list_ascii_of_string t)); done.
Qed.

Lemma concat_valid_nonempty s a :
  validSegment s -> String.concat "/" (s :: a) <> ""%string.
Proof.
  intros (Hs & _). destruct s as [|c s]; [done|].
  destruct a; [done|]. by rewrite concat_cons2, append_cons.
Qed.

Lemma endsWithSlash_concat a :
  Forall validSegment a -> Posix.endsWithSlash (String.concat "/" a) = false.
Proof.
  induction 1 as [|s a Hs Ha IH]; [done|].
  destruct a as [|s2 a]; [by apply endsWithSlash_noslash, validSegment_noslash|].
  rewrite concat_cons2, <- append_assoc, endsWithSlash_app; [done|].
  apply Forall_cons in Ha as [Hs2 _]. by apply concat_valid_nonempty.
Qed.

Lemma normalize_absolute_unfold x :
  Posix.normalize (String "/" x)
  = let q := Posix.normalizeString (String "/" x) false in
    if String.eqb q "" then "/"%string
    else "/" +:+ (if Posix.endsWithSlash (String "/" x) then q +:+ "/" else q).
Proof. reflexivity. Qed.

Lemma normalize_absolute a :
  Forall validSegment a -> Posix.normalize (absolutePath a) = absolutePath a.
Proof.
  intros Ha. destruct a as [|s a]; [reflexivity|].
  unfold absolutePath. rewrite append_cons, append_nil_l.
  rewrite normalize_absolute_unfold. cbv zeta.
  change (String "/" (String.concat "/" (s :: a)))
    with (String.concat "/" (""%string :: s :: a)).
  rewrite normalizeString_raw; [|done|].
  2:{ constructor; [by left|]. eapply Forall_impl; [exact Ha|]. by right. }
  rewrite filter_cons. destruct (decide (""%string <> ""%string)); [done|].
  rewrite filter_nonempty_valid by done.
  rewrite (proj2 (String.eqb_neq _ _)).
  2:{ apply Forall_cons in Ha as [Hs _]. by apply concat_valid_nonempty. }
  change (String.concat "/" (""%string :: s :: a))
    with ("/" +:+ String.concat "/" (s :: a)).
  rewrite endsWithSlash_app.
  - by rewrite endsWithSlash_concat.
  - apply Forall_cons in Ha as [Hs _]. by apply concat_valid_nonempty.
Qed.

Lemma Forall_valid_raw a :
  Forall validSegment a -> Forall (fun s => s = ""%string \/ validSegment s) a.
Proof. intros Ha. eapply Forall_impl; [exact Ha|]. by right. Qed.

Lemma normalizePath_absolute cwd a :
  Forall validSegment a ->
  normalizePath (host := Posix.host cwd) (absolutePath a) = absolutePath a.
Proof.
  intros Ha. unfold normalizePath.
  cbn [win32 path_resolve path_normalize Posix.host].
  unfold absolutePath at 1. rewrite resolve_raw by by apply Forall_valid_raw.
  rewrite filter_nonempty_valid by done. by apply normalize_absolute.
Qed.

Lemma normalizePath_trailing_slash cwd a :
  Forall validSegment a ->
  normalizePath (host := Posix.host cwd) (absolutePath a +:+ "/")
  = absolutePath a.
Proof.
  intros Ha. unfold normalizePath.
  cbn [win32 path_resolve path_normalize Posix.host].
  destruct a as [|s a]; [reflexivity|].
  replace (absolutePath (s :: a) +:+ "/")
    with ("/" +:+ String.concat "/" ((s :: a) ++ [""%string])).
  2:{ unfold absolutePath. rewrite concat_snoc by done.
      by rewrite append_assoc. }
  rewrite resolve_raw.
  2:{ apply Forall_app. split; [by apply Forall_valid_raw|].
      by repeat constructor; left. }
  rewrite filter_app, filter_nonempty_valid by done.
  rewrite filter_cons, filter_nil.
  destruct (decide (""%string <> ""%string)); [done|].
  rewrite app_nil_r. by apply normalize_absolute.
Qed.

Lemma pathSegments_absolute a :
  Forall validSegment a -> Posix.pathSegments (absolutePath a) = a.
Proof.
  intros Ha. unfold Posix.pathSegments, absolutePath.
  rewrite append_cons, append_nil_l, split_slash, filter_cons.
  destruct (decide (""%string <> ""%string)); [done|].
  destruct a as [|s a]; [reflexivity|].
  rewrite split_concat; [by apply filter_nonempty_valid|done|].
  eapply Forall_impl; [exact Ha|]. apply validSegment_noslash.
Qed.

Lemma absolutePath_inj a b :
  Forall validSegment a -> Forall validSegment b ->
  absolutePath a = absolutePath b -> a = b.
Proof.
  intros Ha Hb Heq.
  by rewrite <- (pathSegments_absolute a), <- (pathSegments_absolute b), Heq.
Qed.

Lemma dropCommon_app a rest : Posix.dropCommon a (a ++ rest) = ([], rest).
Proof.
  induction a as [|x a IH]; [by destruct rest|].
  cbn [app Posix.dropCommon]. by rewrite String.eqb_refl.
Qed.

Lemma dropCommon_up_nil a b down :
  Posix.dropCommon a b = ([], down) -> b = a ++ down.
Proof.
  revert b. induction a as [|x a IH]; intros b.
  - cbn [Posix.dropCommon]. by destruct b; intros [= <-].
  - destruct b as [|y b]; [by cbn|]. cbn [Posix.dropCommon].
    destruct (String.eqb_spec x y) as [-> | Hne]; [|done].
    intros Hd. cbn [app]. by rewrite (IH b Hd).
Qed.

(** The relative path between two normalized absolute paths. *)
Lemma relative_absolute cwd a b :
  Forall validSegment a -> Forall validSegment b -> a <> b ->
  Posix.relative cwd (absolutePath a) (absolutePath b)
  = String.concat "/"
      (map (fun _ => ".."%string) (fst (Posix.dropCommon a b))
       ++ snd (Posix.dropCommon a b)).
Proof.
  intros Ha Hb Hne. unfold Posix.relative.
  assert (Hneq : absolutePath a <> absolutePath b)
    by (intros Heq; by apply Hne, absolutePath_inj).
  rewrite (proj2 (String.eqb_neq _ _) Hneq).
  assert (Hres : forall c, Forall validSegment c ->
            Posix.resolve cwd (absolutePath c) = absolutePath c).
  { intros c Hc. unfold absolutePath at 1.
    rewrite resolve_raw by by apply Forall_valid_raw.
    by rewrite filter_nonempty_valid. }
  rewrite !Hres by done. rewrite (proj2 (String.eqb_neq _ _) Hneq).
  rewrite !pathSegments_absolute by done.
  by destruct (Posix.dropCommon a b).
Qed.

Lemma concat_head s l :
  exists t, String.concat "/" (s :: l) = s +:+ t.
Proof.
  destruct l as [|y l].
  - exists ""%string. by rewrite append_nil_r.
  - eexists. apply concat_cons2.
Qed.

Lemma startsWith_dotdot_app s t :
  s <> ""%string -> s <> "."%string ->
  String.prefix ".." (s +:+ t) = String.prefix ".." s.
Proof.
  intros H1 H2. destruct s as [|c1 [|c2 s]]; [done| |].
  - rewrite append_cons, append_nil_l. cbn [String.prefix].
    destruct (ascii_dec "." c1) as [<-|]; [done|]. by destruct t.
  - rewrite !append_cons. cbn [String.prefix].
    destruct (ascii_dec "." c1); [|done].
    destruct (ascii_dec "." c2); [|done]. by rewrite !prefix_nil.
Qed.

Lemma startsWith_concat s l :
  validSegment s ->
  JsString.startsWith (String.concat "/" (s :: l)) ".."
  = JsString.startsWith s "..".
Proof.
  intros (H1 & H2 & _). destruct (concat_head s l) as [t ->].
  by apply startsWith_dotdot_app.
Qed.

Lemma isAbsolute_concat s l :
  validSegment s -> Posix.isAbsolute (String.concat "/" (s :: l)) = false.
Proof.
  intros (H1 & _ & _ & H4). destruct (concat_head s l) as [t ->].
  destruct s as [|c s]; [done|]. rewrite append_cons.
  unfold hasSlash in H4. cbn [hasChar] in H4.
  apply orb_false_iff in H4 as [Hc _].
  destruct (Ascii.eqb_spec c "/") as [-> | Hne]; [done|].
  unfold Posix.isAbsolute.
  destruct c as [[] [] [] [] [] [] [] []]; done.
Qed.

Lemma startsWith_parent l :
  JsString.startsWith (String.concat "/" (".."%string :: l)) ".." = true.
Proof.
  destruct (concat_head ".." l) as [t ->]. unfold JsString.startsWith.
  rewrite !append_cons, !prefix_cons. apply prefix_nil.
Qed.

Lemma relative_same cwd p : Posix.relative cwd p p = ""%string.
Proof. unfold Posix.relative. by rewrite String.eqb_refl. Qed.

(** X11.  Prefix mode on normalized absolute POSIX paths, segment by
    segment: the rule path matches the working directory exactly when the
    working directory's segments continue the rule's segments and the first
    further segment, if there is one, does not begin with two dots. *)
Theorem matchesPath_prefix_segments (cwd : string) (a b : list string) :
  Forall validSegment a -> Forall validSegment b ->
  matchesPath (host := Posix.host cwd) (absolutePath a) (absolutePath b)
    prefix = true <->
  exists rest, b = a ++ rest
    /\ match rest with
       | [] => True
       | s :: _ => JsString.startsWith s ".." = false
       end.
Proof.
  intros Ha Hb. rewrite matchesPath_prefix_unfold. cbv zeta.
  rewrite !normalizePath_absolute by done.
  cbn [path_relative path_isAbsolute Posix.host].
  destruct (decide (a = b)) as [-> | Hne].
  { rewrite relative_same. split; [|by left].
    intros _. exists []. by rewrite app_nil_r. }
  rewrite relative_absolute by done.
  destruct (Posix.dropCommon a b) as [up down] eqn:Hd. cbn [fst snd].
  destruct up as [|u up].
  - apply dropCommon_up_nil in Hd. subst b. cbn [map app].
    destruct down as [|s down]; [by rewrite app_nil_r in Hne|].
    assert (Hs : validSegment s).
    { apply Forall_app in Hb as [_ Hb]. by apply Forall_cons in Hb as [? _]. }
    rewrite startsWith_concat, isAbsolute_concat by done. split.
    + intros [Hrel | [Hdots _]].
      * by apply concat_valid_nonempty in Hrel.
      * by exists (s :: down).
    + intros (rest & Heq%app_inv_head & Hrest). subst rest. by right.
  - split.
    + cbn [map app]. rewrite startsWith_parent.
      intros [Hrel | [Hdots _]]; [|done].
      destruct (concat_head ".." (map (fun _ => ".."%string) up ++ down))
        as [t Ht].
      rewrite Ht in Hrel. by rewrite !append_cons in Hrel.
    + intros (rest & -> & _). by rewrite dropCommon_app in Hd.
Qed.

Lemma matchesPath_prefix_segments_witness :
  matchesPath (host := Posix.host "/") (absolutePath ["a"; "b"])
    (absolutePath ["a"; "b"; "..foo"]) prefix = true <->
  exists rest, ["a"; "b"; "..foo"] = ["a"; "b"] ++ rest
    /\ match rest with
       | [] => True
       | s :: _ => JsString.startsWith s ".." = false
       end.
Proof.
  apply (matchesPath_prefix_segments "/" ["a"; "b"] ["a"; "b"; "..foo"]);
    repeat constructor; discriminate.
Defined.

(** X12.  Exact mode on normalized absolute POSIX paths holds exactly for
    equal segment lists, and in both modes a trailing slash on either path
    changes nothing. *)
Theorem matchesPath_exact_segments (cwd : string) (a b : list string)
    (mode : PathMatchMode) :
  Forall validSegment a -> Forall validSegment b ->
  (matchesPath (host := Posix.host cwd) (absolutePath a) (absolutePath b)
     exact = true <-> a = b)
  /\ matchesPath (host := Posix.host cwd) (absolutePath a +:+ "/")
       (absolutePath b) mode
     = matchesPath (host := Posix.host cwd) (absolutePath a)
         (absolutePath b) mode
  /\ matchesPath (host := Posix.host cwd) (absolutePath a)
       (absolutePath b +:+ "/") mode
     = matchesPath (host := Posix.host cwd) (absolutePath a)
         (absolutePath b) mode.
Proof.
  intros Ha Hb. split; [|split].
  - rewrite matchesPath_exact_unfold, !normalizePath_absolute by done.
    split; [by apply absolutePath_inj|by intros ->].
  - unfold matchesPath.
    by rewrite normalizePath_trailing_slash, !normalizePath_absolute.
  - unfold matchesPath.
    by rewrite normalizePath_trailing_slash, !normalizePath_absolute.
Qed.

Lemma matchesPath_exact_segments_witness :
  (matchesPath (host := Posix.host "/") (absolutePath ["a"; "b"])
     (absolutePath ["a"; "b"; "c"]) exact = true
   <-> ["a"; "b"] = ["a"; "b"; "c"])
  /\ matchesPath (host := Posix.host "/") (absolutePath ["a"; "b"] +:+ "/")
       (absolutePath ["a"; "b"; "c"]) prefix
     = matchesPath (host := Posix.host "/") (absolutePath ["a"; "b"])
         (absolutePath ["a"; "b"; "c"]) prefix
  /\ matchesPath (host := Posix.host "/") (absolutePath ["a"; "b"])
       (absolutePath ["a"; "b"; "c"] +:+ "/") prefix
     = matchesPath (host := Posix.host "/") (absolutePath ["a"; "b"])
         (absolutePath ["a"; "b"; "c"]) prefix.
Proof.
  apply (matchesPath_exact_segments "/" ["a"; "b"] ["a"; "b"; "c"] prefix);
    repeat constructor; discriminate.
Defined.

(** ** Every POSIX path, resolved *)

Lemma split_app_sep ch s t :
  JsString.split ch (s +:+ String ch t)
  = JsString.split ch s ++ JsString.split ch t.
Proof.
  induction s as [|c s IH]; [by rewrite append_nil_l, split_sep|].
  rewrite append_cons. cbn [JsString.split].
  destruct (Ascii.eqb c ch); rewrite IH; [done|].
  destruct (JsString.split ch s) as [|seg rest] eqn:Hs; [|done].
  destruct s as [|c' s]; [done|]. cbn [JsString.split] in Hs.
  destruct (Ascii.eqb c' ch); [done|]. by destruct (JsString.split ch s).
Qed.

Lemma split_parts_nochar ch s :
  Forall (fun seg => hasChar ch seg = false) (JsString.split ch s).
Proof.
  induction s as [|c s IH]; [by repeat constructor|].
  cbn [JsString.split]. destruct (Ascii.eqb c ch) eqn:Hc.
  - by constructor.
  - destruct (JsString.split ch s) as [|seg rest]; [by repeat constructor; cbn; rewrite Hc|].
    apply Forall_cons in IH as [Hseg Hrest].
    constructor; [|done]. cbn [hasChar]. by rewrite Hc, Hseg.
Qed.

Lemma resolveSegments_fold stack segs :
  Forall validSegment stack ->
  Forall (fun seg => hasSlash seg = false) segs ->
  rev (fold_left (Posix.normalizeStep false) segs stack)
  = resolveSegments stack segs
  /\ Forall validSegment (resolveSegments stack segs).
Proof.
  intros Hstack Hsegs. revert stack Hstack.
  induction Hsegs as [|seg segs Hseg Hsegs IH]; intros stack Hstack.
  { cbn [fold_left resolveSegments]. split; [done|]. by apply Forall_rev. }
  cbn [fold_left resolveSegments]. unfold Posix.normalizeStep at 2.
  destruct (String.eqb_spec seg "") as [->|H1]; cbn [orb]; [by apply IH|].
  destruct (String.eqb_spec seg ".") as [->|H2]; [by apply IH|].
  destruct (String.eqb_spec seg "..") as [->|H3].
  - destruct stack as [|last stack]; [by apply IH|].
    apply Forall_cons in Hstack as [Hlast Hstack].
    destruct (String.eqb_spec last "..") as [->|_]; [by destruct Hlast as (_ & _ & ? & _)|].
    by apply IH.
  - apply IH. by constructor.
Qed.

Lemma normalizeString_resolved q :
  Posix.normalizeString q false = String.concat "/" (resolvedSegments q).
Proof.
  unfold Posix.normalizeString, resolvedSegments. f_equal.
  apply resolveSegments_fold; [constructor|apply split_parts_nochar].
Qed.

Lemma resolvedSegments_valid q : Forall validSegment (resolvedSegments q).
Proof.
  apply resolveSegments_fold; [constructor|apply split_parts_nochar].
Qed.

Lemma resolveSegments_snoc_empty stack segs :
  resolveSegments stack (segs ++ [""%string]) = resolveSegments stack segs.
Proof.
  revert stack. induction segs as [|seg segs IH]; intros stack; [done|].
  cbn [app resolveSegments]. by rewrite !IH.
Qed.

Lemma resolvedSegments_trailing q :
  resolvedSegments (q +:+ "/") = resolvedSegments q.
Proof.
  unfold resolvedSegments.
  change (q +:+ "/") with (q +:+ String "/" "").
  rewrite split_app_sep. apply resolveSegments_snoc_empty.
Qed.

Lemma resolve_resolved cwd p :
  Posix.isAbsolute cwd = true ->
  Posix.resolve cwd p = absolutePath (resolvedSegments (fromCwd cwd p)).
Proof.
  intros Hcwd. unfold Posix.resolve, fromCwd, absolutePath.
  assert (Hne : String.eqb cwd "" = false) by by destruct cwd.
  destruct (String.eqb_spec p "") as [->|Hp].
  - cbn [snd fst Posix.isAbsolute]. rewrite Hne, Hcwd. cbn [negb].
    by rewrite normalizeString_resolved.
  - cbn [snd fst]. destruct (Posix.isAbsolute p) eqn:Hp'.
    + cbn [negb]. by rewrite normalizeString_resolved, resolvedSegments_trailing.
    + rewrite Hne, Hcwd. cbn [negb].
      rewrite normalizeString_resolved.
      replace (cwd +:+ "/" +:+ p +:+ "/")
        with ((cwd +:+ "/" +:+ p) +:+ "/")
        by (by rewrite !append_assoc).
      by rewrite resolvedSegments_trailing.
Qed.

Lemma normalizePath_resolved cwd p :
  Posix.isAbsolute cwd = true ->
  normalizePath (host := Posix.host cwd) p
  = absolutePath (resolvedSegments (fromCwd cwd p)).
Proof.
  intros Hcwd. unfold normalizePath.
  cbn [win32 path_resolve path_normalize Posix.host].
  rewrite resolve_resolved by done.
  apply normalize_absolute, resolvedSegments_valid.
Qed.

Lemma resolveSegments_valid_app stack a :
  Forall validSegment a -> resolveSegments stack a = rev stack ++ a.
Proof.
  intros Ha. revert stack.
  induction Ha as [|s a Hs Ha IH]; intros stack.
  { cbn [resolveSegments]. by rewrite app_nil_r. }
  cbn [resolveSegments]. destruct Hs as (H1 & H2 & H3 & _).
  apply String.eqb_neq in H1, H2, H3. rewrite H1, H2, H3. cbn [orb].
  rewrite IH. cbn [rev]. by rewrite <- app_assoc.
Qed.

Lemma resolvedSegments_absolute a :
  Forall validSegment a -> resolvedSegments (absolutePath a) = a.
Proof.
  intros Ha. unfold resolvedSegments, absolutePath.
  rewrite append_cons, append_nil_l, split_slash.
  destruct a as [|s a]; [reflexivity|].
  rewrite split_concat; [|done|].
  - change (resolveSegments [] (""%string :: s :: a))
      with (resolveSegments [] (s :: a)).
    by rewrite resolveSegments_valid_app.
  - eapply Forall_impl; [exact Ha|]. apply validSegment_noslash.
Qed.

(** C7.  In exact mode the matcher answers true exactly when the two
    normalized paths are the same string, and the normalized path is the
    resolved and normalized input, in lower case on Windows.  With POSIX
    paths and an absolute working directory of the process, the normalized
    path of any input is the absolute path of its resolved segments (the input
    taken below the working directory when it is relative, without its empty
    and [.] segments, each [..] resolved), so that exact mode holds exactly
    when the two inputs have the same resolved segments.  A rule for /a/b
    matches /a/b, however it is written, and neither /a/b/c nor /a. *)
Theorem matchesPath_exact_iff `{host : Host}
    (rulePath workingDirectory : string) :
  (matchesPath rulePath workingDirectory exact = true <->
   normalizePath rulePath = normalizePath workingDirectory)
  /\ (forall cwd,
        matchesPath (host := Posix.host cwd) "/a/b" "/a/b" exact = true
        /\ matchesPath (host := Posix.host cwd) "/a/b" "/a/b/c" exact = false
        /\ matchesPath (host := Posix.host cwd) "/a/b" "/a" exact = false)
  /\ (matchesPath rulePath workingDirectory exact = true <->
      if win32
      then JsString.toLowerCase (path_normalize (path_resolve rulePath))
           = JsString.toLowerCase
               (path_normalize (path_resolve workingDirectory))
      else path_normalize (path_resolve rulePath)
           = path_normalize (path_resolve workingDirectory))
  /\ (forall cwd, Posix.isAbsolute cwd = true ->
        let ruleSegments := resolvedSegments (fromCwd cwd rulePath) in
        let dirSegments := resolvedSegments (fromCwd cwd workingDirectory) in
        Forall validSegment ruleSegments
        /\ Forall validSegment dirSegments
        /\ normalizePath (host := Posix.host cwd) rulePath
           = absolutePath ruleSegments
        /\ normalizePath (host := Posix.host cwd) workingDirectory
           = absolutePath dirSegments
        /\ (matchesPath (host := Posix.host cwd) rulePath workingDirectory
              exact = true <-> ruleSegments = dirSegments))
  /\ (forall a, Forall validSegment a -> resolvedSegments (absolutePath a) = a)
  /\ (forall cwd,
        matchesPath (host := Posix.host cwd) "/a/b/" "/a/b" exact = true
        /\ matchesPath (host := Posix.host cwd) "/a/b" "/a//b/" exact = true
        /\ matchesPath (host := Posix.host cwd) "/a/./b" "/a/b" exact = true
        /\ matchesPath (host := Posix.host cwd) "/a/b" "/a/x/../b" exact = true
        /\ matchesPath (host := Posix.host cwd) "/a/b" "/a/b/c/.." exact = true
        /\ matchesPath (host := Posix.host cwd) "/a/b" "/../a/b" exact = true
        /\ matchesPath (host := Posix.host cwd) "/a/b/" "/a/b/c" exact = false
        /\ matchesPath (host := Posix.host cwd) "/a/b/.." "/a/b" exact = false
        /\ matchesPath (host := Posix.host cwd) "/a/b" "/a/B" exact = false)
  /\ matchesPath (host := Posix.host "/a") "b" "/a/b" exact = true
  /\ matchesPath (host := Posix.host "/a/b") "" "/a/b" exact = true
  /\ matchesPath (host := Posix.host "/a/b/c") "../../b" "/a/b" exact = true
  /\ matchesPath (host := Posix.host "/x") "b" "/a/b" exact = false.
Proof.
  split; [apply matchesPath_exact_unfold|].
  split; [intros cwd; repeat split|].
  split.
  { rewrite matchesPath_exact_unfold. unfold normalizePath.
    by destruct win32. }
  split.
  { intros cwd Hcwd ruleSegments dirSegments.
    split; [apply resolvedSegments_valid|].
    split; [apply resolvedSegments_valid|].
    split; [by apply normalizePath_resolved|].
    split; [by apply normalizePath_resolved|].
    rewrite matchesPath_exact_unfold, !normalizePath_resolved by done.
    subst ruleSegments dirSegments. split; [|by intros ->].
    apply absolutePath_inj; apply resolvedSegments_valid. }
  split; [apply resolvedSegments_absolute|].
  split; [intros cwd; repeat split|].
  repeat split.
Qed.

(** ** More on the store *)

Lemma validRules_configToJson (config : PathRulesConfig Json.value) :
  Storage.validRules (Storage.configToJson config)
  = List.filter Storage.isValidRule (rules config).
Proof.
  unfold Storage.validRules, Storage.configToJson. cbn [Json.get].
  rewrite lookup_insert_ne by done. by rewrite lookup_insert_eq.
Qed.

Lemma filter_all_valid (entries : list Json.value) :
  Forall (fun rule => Storage.isValidRule rule = true) entries ->
  List.filter Storage.isValidRule entries = entries.
Proof.
  induction 1 as [|rule entries Hr _ IH]; [done|].
  cbn [List.filter]. by rewrite Hr, IH.
Qed.

(** X13.  Saving and then loading: when the written document is read back
    and parses to what was serialized, the load returns the saved rules that
    pass [isValidRule], in order, under version 1; so a configuration of
    version 1 whose rules are all valid comes back unchanged. *)
Theorem save_then_load `{host : StoreHost}
    (root : string) (config : PathRulesConfig Json.value)
    (w : Storage.World) :
  let p := Storage.getPathRulesPath root in
  let content := JSON_stringify (Storage.configToJson config) in
  let w' := snd (Storage.savePathRulesConfig root config w) in
  fs_existsSync (Storage.files w') p = true ->
  fs_readFileSync (Storage.files w') p = inr content ->
  JSON_parse content = inr (Storage.configToJson config) ->
  fst (Storage.loadPathRulesConfig root w')
    = Storage.Return
        {| version := 1;
           rules := List.filter Storage.isValidRule (rules config) |}
  /\ (version config = 1 ->
      Forall (fun rule => Storage.isValidRule rule = true) (rules config) ->
      fst (Storage.loadPathRulesConfig root w') = Storage.Return config).
Proof.
  intros p content w' Hex Hread Hparse.
  assert (Hload : fst (Storage.loadPathRulesConfig root w')
    = Storage.Return
        {| version := 1;
           rules := List.filter Storage.isValidRule (rules config) |}).
  { rewrite loadPathRulesConfig_unfold. cbv zeta. fold p.
    rewrite Hex, Hread. fold content. rewrite Hparse.
    cbn [Storage.configToJson Json.isObject fst].
    by rewrite <- validRules_configToJson. }
  split; [done|]. intros Hv Hall. rewrite Hload.
  rewrite filter_all_valid by done. destruct config as [v rs].
  cbn [version] in Hv. by subst v.
Qed.

Lemma save_then_load_witness :
  fst (Storage.loadPathRulesConfig (host := roundTripHost) "/ws"
         (snd (Storage.savePathRulesConfig (host := roundTripHost) "/ws"
                 savedConfig emptyWorkspace)))
    = Storage.Return
        {| version := 1;
           rules := List.filter Storage.isValidRule (rules savedConfig) |}
  /\ (version savedConfig = 1 ->
      Forall (fun rule => Storage.isValidRule rule = true)
        (rules savedConfig) ->
      fst (Storage.loadPathRulesConfig (host := roundTripHost) "/ws"
             (snd (Storage.savePathRulesConfig (host := roundTripHost) "/ws"
                     savedConfig emptyWorkspace)))
        = Storage.Return savedConfig).
Proof.
  apply (save_then_load (host := roundTripHost) "/ws" savedConfig
           emptyWorkspace); vm_compute; reflexivity.
Defined.

(** X14.  When the stored document parses to an object whose [rules] is an
    array, every entry of the array is either loaded or reported by one
    warning, in order: the warnings added to the console are exactly the
    invalid entries, and loaded rules plus new warnings count the entries. *)
Theorem loadPathRulesConfig_accounts_for_entries `{host : StoreHost}
    (root : string) (w : Storage.World) (content : string)
    (parsed : Json.value) (entries : list Json.value) :
  let p := Storage.getPathRulesPath root in
  let r := Storage.loadPathRulesConfig root w in
  fs_existsSync (Storage.files w) p = true ->
  fs_readFileSync (Storage.files w) p = inr content ->
  JSON_parse content = inr parsed ->
  Json.isObject parsed = true ->
  Json.get parsed "rules" = Some (Json.Array entries) ->
  Storage.console (snd r)
    = Storage.console w
      ++ (Storage.SkippingInvalidRule
            <$> List.filter (fun e => negb (Storage.isValidRule e)) entries)
  /\ exists config,
       fst r = Storage.Return config
       /\ (length (rules config)
           + (length (Storage.console (snd r)) - length (Storage.console w))
           = length entries)%nat.
Proof.
  intros p r Hex Hread Hparse Hobj Hrules. subst r.
  rewrite loadPathRulesConfig_unfold. cbv zeta. fold p.
  rewrite Hex, Hread, Hparse, Hobj, Hrules. cbn [fst snd].
  unfold Storage.warned. cbn [Storage.console]. split; [done|].
  eexists. split; [done|]. cbn [rules]. unfold Storage.validRules.
  rewrite Hrules, length_app, length_fmap.
  generalize (length (Storage.console w)). intros n. clear.
  induction entries as [|e entries IH]; cbn [List.filter length]; [lia|].
  destruct (Storage.isValidRule e); cbn [negb length]; lia.
Qed.

Lemma loadPathRulesConfig_accounts_for_entries_witness :
  Storage.console
    (snd (Storage.loadPathRulesConfig (host := exampleHost) "/ws" exampleWorld))
    = Storage.console exampleWorld
      ++ (Storage.SkippingInvalidRule
            <$> List.filter (fun e => negb (Storage.isValidRule e))
                  [validRule1; ruleWithoutPath; validRule2])
  /\ exists config,
       fst (Storage.loadPathRulesConfig (host := exampleHost) "/ws"
              exampleWorld) = Storage.Return config
       /\ (length (rules config)
           + (length (Storage.console
                        (snd (Storage.loadPathRulesConfig (host := exampleHost)
                                "/ws" exampleWorld)))
              - length (Storage.console exampleWorld))
           = length [validRule1; ruleWithoutPath; validRule2])%nat.
Proof.
  apply (loadPathRulesConfig_accounts_for_entries (host := exampleHost)
           "/ws" exampleWorld "doc" (Json.Object documentProps)
           [validRule1; ruleWithoutPath; validRule2]);
    vm_compute; reflexivity.
Defined.

(** X15.  Fields other than [id], [path], [match] and [labelId] play no part
    in the validity of an entry: adding, changing or removing one leaves
    [isValidRule] as it was. *)
Theorem isValidRule_other_fields (props : gmap string Json.value)
    (k : string) (v : Json.value) :
  k <> "id"%string -> k <> "path"%string -> k <> "match"%string ->
  k <> "labelId"%string ->
  Storage.isValidRule (Json.Object (<[k := v]> props))
    = Storage.isValidRule (Json.Object props)
  /\ Storage.isValidRule (Json.Object (delete k props))
     = Storage.isValidRule (Json.Object props).
Proof.
  intros H1 H2 H3 H4. unfold Storage.isValidRule.
  cbn [Json.isObject negb Json.get].
  by rewrite !lookup_insert_ne, !lookup_delete_ne.
Qed.

Lemma isValidRule_other_fields_witness :
  Storage.isValidRule
    (Json.Object (<["enabled" := Json.Str "maybe"]> documentProps))
    = Storage.isValidRule (Json.Object documentProps)
  /\ Storage.isValidRule (Json.Object (delete "enabled" documentProps))
     = Storage.isValidRule (Json.Object documentProps).
Proof.
  apply (isValidRule_other_fields documentProps "enabled"
           (Json.Str "maybe")); discriminate.
Defined.

(** X17.  With POSIX paths, the rules of a workspace whose root is a
    normalized absolute path live in [<root>/labels/path-rules.json], and the
    directory that saving looks for and creates is [<root>/labels]. *)
Theorem getPathRulesPath_posix (documents : list (string * Json.value))
    (stringify : Json.value -> string) (a : list string) :
  Forall validSegment a ->
  Storage.getPathRulesPath (host := MemHost.host documents stringify)
    (absolutePath a)
    = absolutePath (a ++ ["labels"; "path-rules.json"])
  /\ path_dirname (StoreHost := MemHost.host documents stringify)
       (Storage.getPathRulesPath (host := MemHost.host documents stringify)
          (absolutePath a))
     = absolutePath (a ++ ["labels"]).
Proof.
  intros Ha.
  assert (Hvalid : Forall validSegment (a ++ ["labels"; "path-rules.json"])).
  { apply Forall_app. split; [done|]. repeat constructor; discriminate. }
  assert (Hpath : Storage.getPathRulesPath
                    (host := MemHost.host documents stringify) (absolutePath a)
                  = absolutePath (a ++ ["labels"; "path-rules.json"])).
  { unfold Storage.getPathRulesPath. cbn [path_join MemHost.host].
    destruct a as [|s a]; [reflexivity|].
    unfold Posix.join. rewrite !filter_cons, filter_nil.
    destruct (decide (absolutePath (s :: a) <> ""%string)) as [_|Hn];
      [|by destruct Hn].
    destruct (decide (Storage.PATH_RULES_FILENAME <> ""%string)) as [_|Hn];
      [|by destruct Hn].
    destruct (decide ("labels"%string <> ""%string)) as [_|Hn];
      [|by destruct Hn].
    rewrite <- (normalize_absolute _ Hvalid). f_equal.
    unfold absolutePath.
    change (s :: a ++ ["labels"%string; "path-rules.json"%string])
      with ((s :: a) ++ ["labels"%string; "path-rules.json"%string]).
    replace ((s :: a) ++ ["labels"%string; "path-rules.json"%string])
      with (((s :: a) ++ ["labels"%string]) ++ ["path-rules.json"%string])
      by by rewrite <- app_assoc.
    rewrite !concat_snoc; try done.
    rewrite !concat_cons2. unfold Storage.PATH_RULES_FILENAME.
    by rewrite !append_assoc. }
  split; [done|]. rewrite Hpath. cbn [path_dirname MemHost.host].
  unfold Posix.dirname, absolutePath.
  rewrite append_cons, append_nil_l, split_slash.
  rewrite split_concat.
  2:{ by destruct a. }
  2:{ eapply Forall_impl; [exact Hvalid|]. apply validSegment_noslash. }
  replace (""%string :: a ++ ["labels"%string; "path-rules.json"%string])
    with ((""%string :: a ++ ["labels"%string]) ++ ["path-rules.json"%string])
    by (cbn [app]; by rewrite <- app_assoc).
  rewrite removelast_last.
  destruct (a ++ ["labels"%string]) as [|x l] eqn:Hal;
    [by destruct a|].
  by rewrite concat_cons2, append_nil_l.
Qed.

Lemma getPathRulesPath_posix_witness :
  Storage.getPathRulesPath (host := exampleHost) (absolutePath ["ws"])
    = absolutePath (["ws"] ++ ["labels"; "path-rules.json"])
  /\ path_dirname (StoreHost := exampleHost)
       (Storage.getPathRulesPath (host := exampleHost) (absolutePath ["ws"]))
     = absolutePath (["ws"] ++ ["labels"]).
Proof.
  apply (getPathRulesPath_posix [("doc", Json.Object documentProps)]
           (fun _ => "doc"%string) ["ws"]).
  repeat constructor; discriminate.
Defined.

(** ** Trimming and the title generator *)

Lemma allChars_app set s t :
  JsText.allChars set (s +:+ t)
  = JsText.allChars set s && JsText.allChars set t.
Proof.
  induction s as [|c s IH]; [done|].
  rewrite append_cons. cbn [JsText.allChars]. by rewrite IH, andb_assoc.
Qed.

Lemma allChars_weaken (set1 set2 : ascii -> bool) s :
  (forall c, set1 c = true -> set2 c = true) ->
  JsText.allChars set1 s = true -> JsText.allChars set2 s = true.
Proof.
  intros Hsub. induction s as [|c s IH]; [done|]. cbn [JsText.allChars].
  intros [Hc Hs]%andb_true_iff. by rewrite (Hsub c Hc), IH.
Qed.

Lemma stripStart_split set s :
  exists pre, s = pre +:+ JsText.stripStart set s
              /\ JsText.allChars set pre = true.
Proof.
  induction s as [|c s (pre & Hs & Hpre)]; [by exists ""%string|].
  cbn [JsText.stripStart]. destruct (set c) eqn:Hc.
  - exists (String c pre). rewrite append_cons, <- Hs. split; [done|].
    cbn [JsText.allChars]. by rewrite Hc.
  - by exists ""%string.
Qed.

Lemma stripStart_first set s c :
  JsText.firstChar (JsText.stripStart set s) = Some c -> set c = false.
Proof.
  induction s as [|c0 s IH]; [done|]. cbn [JsText.stripStart].
  destruct (set c0) eqn:Hc; [done|]. cbn [JsText.firstChar]. congruence.
Qed.

Lemma stripStart_id set s :
  (forall c, JsText.firstChar s = Some c -> set c = false) ->
  JsText.stripStart set s = s.
Proof.
  destruct s as [|c s]; [done|]. intros H. cbn [JsText.stripStart].
  by rewrite (H c eq_refl).
Qed.

Lemma stripEnd_cons set c s :
  JsText.stripEnd set (String c s)
  = if String.eqb (JsText.stripEnd set s) "" && set c then ""%string
    else String c (JsText.stripEnd set s).
Proof.
  cbn [JsText.stripEnd]. destruct (JsText.stripEnd set s); [|done].
  by destruct (set c).
Qed.

Lemma stripEnd_split set s :
  exists post, s = JsText.stripEnd set s +:+ post
               /\ JsText.allChars set post = true.
Proof.
  induction s as [|c s (post & Hs & Hpost)]; [by exists ""%string|].
  rewrite stripEnd_cons.
  destruct (String.eqb_spec (JsText.stripEnd set s) "") as [He|Hne].
  - destruct (set c) eqn:Hc; cbn [andb].
    + exists (String c post). rewrite He, append_nil_l in Hs. subst s.
      split; [done|]. cbn [JsText.allChars]. by rewrite Hc.
    + exists post. rewrite append_cons, <- Hs. done.
  - exists post. cbn [andb]. rewrite append_cons, <- Hs. done.
Qed.

Lemma lastChar_cons c s :
  JsText.lastChar (String c s)
  = match s with
    | EmptyString => Some c
    | _ => JsText.lastChar s
    end.
Proof. by destruct s. Qed.

Lemma stripEnd_last set s c :
  JsText.lastChar (JsText.stripEnd set s) = Some c -> set c = false.
Proof.
  induction s as [|c0 s IH]; [done|]. rewrite stripEnd_cons.
  destruct (String.eqb_spec (JsText.stripEnd set s) "") as [He|Hne].
  - rewrite He. destruct (set c0) eqn:Hc; cbn [andb]; [done|].
    cbn [JsText.lastChar]. congruence.
  - cbn [andb]. rewrite lastChar_cons.
    by destruct (JsText.stripEnd set s).
Qed.

Lemma stripEnd_first set s c :
  JsText.firstChar (JsText.stripEnd set s) = Some c ->
  JsText.firstChar s = Some c.
Proof.
  destruct s as [|c0 s]; [done|]. rewrite stripEnd_cons.
  by destruct (String.eqb (JsText.stripEnd set s) "" && set c0).
Qed.

Lemma stripEnd_id set s :
  (forall c, JsText.lastChar s = Some c -> set c = false) ->
  JsText.stripEnd set s = s.
Proof.
  induction s as [|c s IH]; [done|]. intros H. rewrite stripEnd_cons.
  rewrite lastChar_cons in H. destruct s as [|c1 s].
  - cbn [JsText.stripEnd String.eqb andb]. by rewrite (H c eq_refl).
  - rewrite IH by done. done.
Qed.

Lemma between_refl set1 set2 s : between set1 set2 s s.
Proof. exists ""%string, ""%string. by rewrite append_nil_r. Qed.

Lemma between_trans set1 set2 s t u :
  between set1 set2 s t -> between set1 set2 t u -> between set1 set2 s u.
Proof.
  intros (pre1 & post1 & -> & Hp1 & Hq1) (pre2 & post2 & -> & Hp2 & Hq2).
  exists (pre2 +:+ pre1), (post1 +:+ post2).
  rewrite !allChars_app, Hp1, Hp2, Hq1, Hq2. split; [|done].
  by rewrite !append_assoc.
Qed.

Lemma between_stripStart (set set1 set2 : ascii -> bool) s :
  (forall c, set c = true -> set1 c = true) ->
  between set1 set2 (JsText.stripStart set s) s.
Proof.
  intros Hsub. destruct (stripStart_split set s) as (pre & Hs & Hpre).
  exists pre, ""%string. rewrite append_nil_r. split; [done|].
  split; [by eapply allChars_weaken|done].
Qed.

Lemma between_stripEnd (set set1 set2 : ascii -> bool) s :
  (forall c, set c = true -> set2 c = true) ->
  between set1 set2 (JsText.stripEnd set s) s.
Proof.
  intros Hsub. destruct (stripEnd_split set s) as (post & Hs & Hpost).
  exists ""%string, post. rewrite append_nil_l. split; [done|].
  split; [done|by eapply allChars_weaken].
Qed.

Lemma trim_first s c :
  JsText.firstChar (JsText.trim s) = Some c -> JsText.isWhiteSpace c = false.
Proof. intros H%stripEnd_first. by eapply stripStart_first. Qed.

Lemma trim_last s c :
  JsText.lastChar (JsText.trim s) = Some c -> JsText.isWhiteSpace c = false.
Proof. apply stripEnd_last. Qed.

Lemma cleanTitle_between raw :
  between
    (fun c => JsText.isWhiteSpace c || TitleGenerator.isQuote c)
    (fun c => JsText.isWhiteSpace c || TitleGenerator.isQuote c
              || TitleGenerator.isEndPunctuation c)
    (TitleGenerator.cleanTitle raw) raw.
Proof.
  unfold TitleGenerator.cleanTitle, JsText.trim. cbv zeta.
  repeat (eapply between_trans;
          [first [apply between_stripEnd | apply between_stripStart];
           intros c Hc; rewrite Hc; by rewrite ?orb_true_r|]).
  apply between_refl.
Qed.

(** X18.  [cleanTitle] only removes from the two ends: its result is a
    part of the input, preceded there by blanks and quotes only and followed
    by blanks, quotes and the punctuation [.!?] only; and the result neither
    starts nor ends with a blank. *)
Theorem cleanTitle_strips_ends (raw : string) :
  (exists pre post,
      raw = pre +:+ TitleGenerator.cleanTitle raw +:+ post
      /\ JsText.allChars
           (fun c => JsText.isWhiteSpace c || TitleGenerator.isQuote c) pre
         = true
      /\ JsText.allChars
           (fun c => JsText.isWhiteSpace c || TitleGenerator.isQuote c
                     || TitleGenerator.isEndPunctuation c) post = true)
  /\ (forall c, JsText.firstChar (TitleGenerator.cleanTitle raw) = Some c ->
        JsText.isWhiteSpace c = false)
  /\ (forall c, JsText.lastChar (TitleGenerator.cleanTitle raw) = Some c ->
        JsText.isWhiteSpace c = false).
Proof.
  split; [apply cleanTitle_between|]. split; intros c.
  - apply trim_first.
  - apply trim_last.
Qed.

(** X19.  A text that starts with neither a blank nor a quote and ends
    with neither a blank, a quote nor one of [.!?] is its own clean title. *)
Theorem cleanTitle_fixed (raw : string) :
  (forall c, JsText.firstChar raw = Some c ->
     JsText.isWhiteSpace c = false /\ TitleGenerator.isQuote c = false) ->
  (forall c, JsText.lastChar raw = Some c ->
     JsText.isWhiteSpace c = false /\ TitleGenerator.isQuote c = false
     /\ TitleGenerator.isEndPunctuation c = false) ->
  TitleGenerator.cleanTitle raw = raw.
Proof.
  intros Hfirst Hlast. unfold TitleGenerator.cleanTitle, JsText.trim.
  cbv zeta.
  assert (Hws1 : JsText.stripStart JsText.isWhiteSpace raw = raw)
    by (apply stripStart_id; intros c Hc; by apply Hfirst).
  assert (Hws2 : JsText.stripEnd JsText.isWhiteSpace raw = raw)
    by (apply stripEnd_id; intros c Hc; by apply Hlast).
  assert (Hq1 : JsText.stripStart TitleGenerator.isQuote raw = raw)
    by (apply stripStart_id; intros c Hc; by apply Hfirst).
  assert (Hq2 : JsText.stripEnd TitleGenerator.isQuote raw = raw)
    by (apply stripEnd_id; intros c Hc; by apply Hlast).
  assert (Hp : JsText.stripEnd TitleGenerator.isEndPunctuation raw = raw)
    by (apply stripEnd_id; intros c Hc; by apply Hlast).
  by rewrite Hws1, Hws2, Hq1, Hq2, Hp, Hws1, Hws2.
Qed.

Lemma cleanTitle_fixed_witness :
  TitleGenerator.cleanTitle "Fix auth bug" = "Fix auth bug"%string.
Proof.
  apply (cleanTitle_fixed "Fix auth bug").
  - intros c [= <-]. by split.
  - intros c [= <-]. by repeat split.
Defined.

(** X20.  A title the generator returns is the clean title of the streamed
    text, has between 1 and 50 characters, neither starts nor ends with a
    blank, and is a part of the text the assistant's text blocks spell. *)
Theorem titleFromMessages_accepted (messages : list TitleGenerator.message)
    (title : string) :
  TitleGenerator.titleFromMessages messages = Some title ->
  title = TitleGenerator.cleanTitle (TitleGenerator.collectTitle messages)
  /\ 1 <= JsString.length title <= 50
  /\ (forall c, JsText.firstChar title = Some c ->
        JsText.isWhiteSpace c = false)
  /\ (forall c, JsText.lastChar title = Some c ->
        JsText.isWhiteSpace c = false)
  /\ exists pre post,
       TitleGenerator.collectTitle messages = pre +:+ title +:+ post.
Proof.
  unfold TitleGenerator.titleFromMessages. cbv zeta.
  destruct (negb _ && _ && _) eqn:Hok; [|done]. intros [= <-].
  apply andb_true_iff in Hok as [[_ Hpos]%andb_true_iff Hle].
  apply Z.ltb_lt in Hpos. apply Z.leb_le in Hle.
  split; [done|]. split; [lia|].
  split; [apply trim_first|]. split; [apply trim_last|].
  destruct (cleanTitle_between (TitleGenerator.collectTitle messages))
    as (pre & post & Heq & _). by exists pre, post.
Qed.

Lemma titleFromMessages_accepted_witness :
  "Fix bug"%string
    = TitleGenerator.cleanTitle
        (TitleGenerator.collectTitle
           [TitleGenerator.Assistant
              [TitleGenerator.TextBlock " Fix "; TitleGenerator.OtherBlock;
               TitleGenerator.TextBlock "bug."];
            TitleGenerator.OtherMessage])
  /\ 1 <= JsString.length "Fix bug" <= 50
  /\ (forall c, JsText.firstChar "Fix bug" = Some c ->
        JsText.isWhiteSpace c = false)
  /\ (forall c, JsText.lastChar "Fix bug" = Some c ->
        JsText.isWhiteSpace c = false)
  /\ exists pre post,
       TitleGenerator.collectTitle
         [TitleGenerator.Assistant
            [TitleGenerator.TextBlock " Fix "; TitleGenerator.OtherBlock;
             TitleGenerator.TextBlock "bug."];
          TitleGenerator.OtherMessage]
       = pre +:+ "Fix bug" +:+ post.
Proof.
  apply (titleFromMessages_accepted
           [TitleGenerator.Assistant
              [TitleGenerator.TextBlock " Fix "; TitleGenerator.OtherBlock;
               TitleGenerator.TextBlock "bug."];
            TitleGenerator.OtherMessage] "Fix bug").
  reflexivity.
Defined.

(** ** Accelerator validation *)

Lemma split_nonempty ch s : JsString.split ch s <> [].
Proof.
  destruct s as [|c s]; [done|]. cbn [JsString.split].
  destruct (Ascii.eqb c ch); [done|]. by destruct (JsString.split ch s).
Qed.

(** X21.  An accelerator without a plus sign is never valid, whatever it
    spells. *)
Theorem isValidAccelerator_needs_plus (accelerator : string) :
  hasChar "+" accelerator = false ->
  Shortcut.isValidAccelerator accelerator = false.
Proof.
  intros Hplus. unfold Shortcut.isValidAccelerator.
  destruct (String.eqb accelerator ""); [done|].
  by rewrite split_nochar.
Qed.

Lemma isValidAccelerator_needs_plus_witness :
  Shortcut.isValidAccelerator "Shift" = false.
Proof. apply (isValidAccelerator_needs_plus "Shift"). reflexivity. Defined.

(** X22.  When the text before the first plus sign is a modifier, in any
    letter case and with blanks around it, the accelerator is valid whatever
    follows the plus sign: nothing, another modifier, or any other text.  No
    key is asked for. *)
Theorem isValidAccelerator_modifier_first (m rest : string) :
  hasChar "+" m = false ->
  Shortcut.isModifier (JsText.trim m) = true ->
  Shortcut.isValidAccelerator (m +:+ "+" +:+ rest) = true.
Proof.
  intros Hplus Hmod. unfold Shortcut.isValidAccelerator.
  rewrite append_cons, append_nil_l.
  destruct (String.eqb_spec (m +:+ String "+" rest) "") as [He|_].
  { destruct m; [|done]. by rewrite append_nil_l in He. }
  rewrite split_nochar_app by done. cbv zeta.
  destruct (JsString.split "+" rest) as [|x l] eqn:Hs;
    [by apply split_nonempty in Hs|].
  cbn [map length existsb]. rewrite Hmod.
  destruct (Z.ltb_spec (Z.of_nat (S (S (length (map JsText.trim l))))) 2);
    [lia|done].
Qed.

Lemma isValidAccelerator_modifier_first_witness :
  Shortcut.isValidAccelerator (" ctrl " +:+ "+" +:+ "") = true.
Proof.
  apply (isValidAccelerator_modifier_first " ctrl " ""); reflexivity.
Defined.
